(** * The bounding-box restaurant finder tool, embedded and verified

    A shallow embedding of [boundingBoxesTool] (app/tools/boundingBoxes.ts):
    the retrying look-up of a state's bounding boxes in the keyed store, the
    split of every box into four quadrants, the fan-out of one places search
    per quadrant and the flattening of the place ids.

    - JavaScript numbers are IEEE 754 binary64 values: [spec_float] with
      precision 53 and maximal exponent 1024, with the library's executable
      addition, division and comparison.
    - The store, the console and the places provider are the effects of the
      tool: they are threaded through a small state-and-exception monad. *)

From Stdlib Require Import ZArith List String Ascii Bool Lia DecimalString.
From Stdlib Require Import Floats.SpecFloat.
From stdpp Require Import base list strings.
Import ListNotations.

Local Open Scope string_scope.
Local Open Scope list_scope.

(** ** JavaScript numbers *)

Module Num.

Definition prec : Z := 53.
Definition emax : Z := 1024.

(** A [number] is a binary64 value; NaN carries no payload. *)
Definition number : Type := spec_float.

(** The values a JavaScript engine can hold: canonical mantissa and an
    exponent in range. *)
Definition representable (x : number) : Prop :=
  valid_binary prec emax x = true.

Definition of_Z (z : Z) : number := binary_normalize prec emax z 0 false.

(** [a + b] and [a / b] on numbers. *)
Definition add (a b : number) : number := SFadd prec emax a b.
Definition div (a b : number) : number := SFdiv prec emax a b.

(** The literal [2]. *)
Definition two : number := Eval vm_compute in of_Z 2.

(** [a <= b], [a < b] and numeric equality [a == b] (for numbers the same
    as [===]): false as soon as one side is NaN, and [+0] equals [-0]. *)
Definition leb (a b : number) : bool := SFleb a b.
Definition ltb (a b : number) : bool := SFltb a b.
Definition eqb (a b : number) : bool := SFeqb a b.

Definition is_nan (a : number) : bool :=
  match a with S754_nan => true | _ => false end.

(** Zero or a finite number: neither NaN nor an infinity. *)
Definition finite (a : number) : Prop :=
  match a with S754_zero _ | S754_finite _ _ _ => True | _ => False end.

(** A decimal literal [n / d] written with integers, rounded once as the
    engine's parser does. *)
Definition decimal (n d : Z) : number := div (of_Z n) (of_Z d).

End Num.

Abbreviation number := Num.number.

(** *** Values of numbers *)

(** The vocabulary in which the arithmetic of numbers is analysed: exact
    integer values of finite numbers and of the intermediate results of the
    operations. *)
Module Float.

#[local] Open Scope Z_scope.

Definition fexp (e : Z) : Z := SpecFloat.fexp Num.prec Num.emax e.

(** Values are counted in units of [2 ^ -1075], half the smallest positive
    number, so that the half of a number is an integer too. *)
Definition unit_exponent : Z := 1075.
Definition scaled (m e : Z) : Z := m * 2 ^ (e + unit_exponent).

(** The value of a finite number, in units. *)
Definition sval (x : number) : Z :=
  match x with
  | S754_finite s m e => cond_Zopp s (scaled (Zpos m) e)
  | _ => 0
  end.

(** A mantissa and an exponent in the form the format stores them. *)
Definition canonical (m e : Z) : Prop :=
  0 < m /\ fexp (Zdigits2 m + e) = e.

(** A value that a canonical number has, up to sign. *)
Definition is_value (V : Z) : Prop :=
  V = 0 \/ exists m e, canonical m e /\ Z.abs V = scaled m e.

(** A shift record that has lost no bit, and the effect of shifting [n]
    bits out of a record. *)
Definition lossless (r : shr_record) : Prop :=
  shr_r r = false /\ shr_s r = false.

Definition shifted (n : Z) (r r' : shr_record) : Prop :=
  shr_m r' = shr_m r / 2 ^ n /\
  (lossless r' <-> lossless r /\ shr_m r mod 2 ^ n = 0).

(** The number made of a rounded mantissa and its exponent. *)
Definition rounded (sx : bool) (m e : Z) : number :=
  match m with
  | Z0 => S754_zero sx
  | Zpos p =>
      if e <=? Num.emax - Num.prec then S754_finite sx p e
      else S754_infinity sx
  | Zneg _ => S754_nan
  end.

(** [r] is a rounding of the value [X]: zero or a canonical number with
    the sign of [X] that no canonical number separates from [X], turned
    into an infinity when its exponent is too large. *)
Definition nearest (X : Z) (r : number) : Prop :=
  exists (s : bool) (m e : Z),
    r = rounded s m e /\ 0 <= m /\ -1074 <= e /\
    (m = 0 \/ canonical m e) /\
    (m <> 0 -> s = (X <? 0)) /\
    (X = 0 -> m = 0) /\
    (forall mf ef, canonical mf ef ->
       scaled mf ef <= Z.abs X -> scaled mf ef <= scaled m e) /\
    (forall mf ef, canonical mf ef ->
       Z.abs X <= scaled mf ef -> scaled m e <= scaled mf ef).

End Float.

(** ** Data model *)

(** Modelled from the spec: the generated [Database] type (types/supabase) is
    not part of the sources; a row of "Bounding Boxes" has the four numeric
    bounds, each of which may be null, a county label and the state name the
    query filters on. *)
Module Row.
Record t : Type := mk {
  STATE_NAME : option string;
  COUNTY_NAME : option string;
  y_min : option number;
  y_max : option number;
  x_min : option number;
  x_max : option number
}.
End Row.

(** The object literals built by the subdivision: the parent's label and four
    bounds that are numbers. *)
Module Quadrant.
Record t : Type := mk {
  COUNTY_NAME : option string;
  y_min : number;
  y_max : number;
  x_min : number;
  x_max : number
}.
End Quadrant.

(** ** Quadrant subdivision *)

(** [const y_mid = (y_min + y_max) / 2] *)
Definition midpoint (lo hi : number) : number :=
  Num.div (Num.add lo hi) Num.two.

(** The callback handed to [flatMap]: nothing for a box with a null bound,
    otherwise the four object literals in source order. *)
Definition divide (box : Row.t) : list Quadrant.t :=
  match Row.y_min box, Row.y_max box, Row.x_min box, Row.x_max box with
  | Some y_min, Some y_max, Some x_min, Some x_max =>
      let COUNTY_NAME := Row.COUNTY_NAME box in
      let y_mid := midpoint y_min y_max in
      let x_mid := midpoint x_min x_max in
      [ Quadrant.mk COUNTY_NAME y_min y_mid x_min x_mid;
        Quadrant.mk COUNTY_NAME y_min y_mid x_mid x_max;
        Quadrant.mk COUNTY_NAME y_mid y_max x_min x_mid;
        Quadrant.mk COUNTY_NAME y_mid y_max x_mid x_max ]
  | _, _, _, _ => []
  end.

(** [boundingBoxes.flatMap(box => ...)] *)
Definition dividedBoundingBoxes (boundingBoxes : list Row.t) : list Quadrant.t :=
  flat_map divide boundingBoxes.

(** *** Extents *)

(** A geographic point, and membership in the closed rectangle a quadrant
    spans, with the engine's [<=]. *)
Record Point : Type := { lat : number; lng : number }.

Definition inside (p : Point) (q : Quadrant.t) : bool :=
  Num.leb (Quadrant.y_min q) (lat p) && Num.leb (lat p) (Quadrant.y_max q)
  && Num.leb (Quadrant.x_min q) (lng p) && Num.leb (lng p) (Quadrant.x_max q).

(** The rectangle of a row whose bounds are all there. *)
Definition extent (box : Row.t) : option Quadrant.t :=
  match Row.y_min box, Row.y_max box, Row.x_min box, Row.x_max box with
  | Some y_min, Some y_max, Some x_min, Some x_max =>
      Some (Quadrant.mk (Row.COUNTY_NAME box) y_min y_max x_min x_max)
  | _, _, _, _ => None
  end.

Definition all_bounds_present (box : Row.t) : Prop :=
  is_Some (Row.y_min box) /\ is_Some (Row.y_max box) /\
  is_Some (Row.x_min box) /\ is_Some (Row.x_max box).

Definition some_bound_null (box : Row.t) : Prop :=
  Row.y_min box = None \/ Row.y_max box = None \/
  Row.x_min box = None \/ Row.x_max box = None.

(** The quadrants cover exactly the parent: a point lies in the parent iff
    it lies in one of them. *)
Definition covers (parent : Quadrant.t) (qs : list Quadrant.t) : Prop :=
  forall p : Point,
    inside p parent = true <-> exists q, In q qs /\ inside p q = true.

(** Two different quadrants of the list meet on the cut lines only: a common
    point has the latitude [y_mid] or the longitude [x_mid]. *)
Definition meet_on_cuts (y_mid x_mid : number) (qs : list Quadrant.t) : Prop :=
  forall (i j : nat) (qi qj : Quadrant.t) (p : Point),
    i <> j -> nth_error qs i = Some qi -> nth_error qs j = Some qj ->
    inside p qi = true -> inside p qj = true ->
    Num.eqb (lat p) y_mid = true \/ Num.eqb (lng p) x_mid = true.

(** ** The keyed store *)

(** The query the client builds, as the chain of builder calls leaves it. *)
Module Query.

Inductive Filter : Type :=
| Ilike (column pattern : string).

Record t : Type := mk {
  relation : string;
  columns : option string;
  filters : list Filter;
  row_limit : option nat
}.

(** [supabase.from(relation)] *)
Definition from (relation : string) : t := mk relation None [] None.

(** [.select(columns)] *)
Definition select (cols : string) (q : t) : t :=
  mk (relation q) (Some cols) (filters q) (row_limit q).

(** [.ilike(column, pattern)] *)
Definition ilike (column pattern : string) (q : t) : t :=
  mk (relation q) (columns q) (filters q ++ [Ilike column pattern]) (row_limit q).

(** [.limit(count)] *)
Definition limit (count : nat) (q : t) : t :=
  mk (relation q) (columns q) (filters q) (Some count).

End Query.

(** The error object of a response, as far as the tool reads it. *)
Record PostgrestError : Type := {
  pg_message : string;
  pg_code : string
}.

(** What [await boundingBoxesQuery] yields: the response [{ data, error }],
    or a rejection of the awaited promise. *)
Record Response : Type := {
  data : option (list Row.t);
  error : option PostgrestError
}.

Inductive Settled : Type :=
| Fulfilled (r : Response)
| Rejected (reason : string).

(** A store behaviour: what the store answers to the n-th query it receives
    (counted from 0) during one call of the tool. *)
Definition Store : Type := nat -> Query.t -> Settled.

(** ** The places provider *)

(** [google.maps.places.PlacesServiceStatus]: the status codes are strings. *)
Definition PlacesServiceStatus : Type := string.
Definition OK : PlacesServiceStatus := "OK".

Record LatLng : Type := { latitude : number; longitude : number }.
Record LatLngBounds : Type := { south_west : LatLng; north_east : LatLng }.
Record PlaceSearchRequest : Type := { bounds : LatLngBounds; type : string }.
Record PlaceResult : Type := { place_id : string; place_name : string }.

(** The arguments the provider passes to the callback of a search. *)
Definition CallbackArgs : Type := (option (list PlaceResult) * PlacesServiceStatus)%type.

(** A provider behaviour: the callback arguments for the i-th search issued
    (counted from 0), and the order in which the callbacks are invoked. *)
Record Provider : Type := {
  respond : nat -> PlaceSearchRequest -> CallbackArgs;
  schedule : nat -> list nat
}.

(** ** Effects *)

(** Values the tool can throw. *)
Inductive Thrown : Type :=
| ThrownPostgrest (e : PostgrestError)
| ThrownError (message : string)
| ThrownRejection (reason : string).

(** [err.message] *)
Definition message_of (err : Thrown) : string :=
  match err with
  | ThrownPostgrest e => pg_message e
  | ThrownError m => m
  | ThrownRejection r => r
  end.

Inductive Level : Type := LevelLog | LevelWarn | LevelError.

(** One console call: its level, its text and, for
    [console.log(text, boundingBoxes)], the value printed after it. *)
Record LogEntry : Type := {
  level : Level;
  text : string;
  printed : option (option (list Row.t))
}.

(** The local variables of the call and the effects it has had so far. *)
Record Frame : Type := {
  attempt : nat;
  boundingBoxes : option (list Row.t);
  console : list LogEntry;
  queries : list Query.t;
  searches : list PlaceSearchRequest
}.

(** How a computation ends: with a value, with a thrown value, or never
    (a promise that stays pending, a loop that is cut). *)
Inductive Completion (A : Type) : Type :=
| Normal (a : A)
| Throw (err : Thrown)
| Pending.
Arguments Normal {A} a.
Arguments Throw {A} err.
Arguments Pending {A}.

Definition M (A : Type) : Type := Frame -> Completion A * Frame.

#[global] Instance M_ret : MRet M := fun A a s => (Normal a, s).

#[global] Instance M_bind : MBind M := fun A B f m s =>
  match m s with
  | (Normal a, s') => f a s'
  | (Throw err, s') => (Throw err, s')
  | (Pending, s') => (Pending, s')
  end.

(** [throw err] *)
Definition throw {A : Type} (err : Thrown) : M A := fun s => (Throw err, s).

(** [try { body } catch (err) { handler }] *)
Definition try_catch {A : Type} (body : M A) (handler : Thrown -> M A) : M A :=
  fun s =>
    match body s with
    | (Throw err, s') => handler err s'
    | r => r
    end.

Definition get_attempt : M nat := fun s => (Normal (attempt s), s).
Definition get_boundingBoxes : M (option (list Row.t)) :=
  fun s => (Normal (boundingBoxes s), s).

Definition set_attempt (n : nat) : M unit := fun s =>
  (Normal tt, {| attempt := n; boundingBoxes := boundingBoxes s;
                 console := console s; queries := queries s;
                 searches := searches s |}).

Definition set_boundingBoxes (v : option (list Row.t)) : M unit := fun s =>
  (Normal tt, {| attempt := attempt s; boundingBoxes := v;
                 console := console s; queries := queries s;
                 searches := searches s |}).

Definition console_call (e : LogEntry) : M unit := fun s =>
  (Normal tt, {| attempt := attempt s; boundingBoxes := boundingBoxes s;
                 console := console s ++ [e]; queries := queries s;
                 searches := searches s |}).

Definition console_log (t : string) : M unit :=
  console_call {| level := LevelLog; text := t; printed := None |}.
Definition console_log_value (t : string) (v : option (list Row.t)) : M unit :=
  console_call {| level := LevelLog; text := t; printed := Some v |}.
Definition console_warn (t : string) : M unit :=
  console_call {| level := LevelWarn; text := t; printed := None |}.
Definition console_error (t : string) : M unit :=
  console_call {| level := LevelError; text := t; printed := None |}.

(** [await query]: the store answers the query, which is recorded. *)
Definition await_query (store : Store) (q : Query.t) : M Response := fun s =>
  let s' := {| attempt := attempt s; boundingBoxes := boundingBoxes s;
               console := console s; queries := queries s ++ [q];
               searches := searches s |} in
  match store (length (queries s)) q with
  | Fulfilled r => (Normal r, s')
  | Rejected reason => (Throw (ThrownRejection reason), s')
  end.

(** [`${n}`] for a counter. *)
Definition decimal_of_nat (n : nat) : string :=
  NilZero.string_of_uint (Nat.to_uint n).

Definition pending {A : Type} : M A := fun s => (Pending, s).

(** The frame a call starts from. *)
Definition initial : Frame :=
  {| attempt := 0; boundingBoxes := None; console := []; queries := [];
     searches := [] |}.

(** ** The tool *)

(** [z.object({ state: z.string() })] *)
Record BoundingBoxInput : Type := { state : string }.

Definition maxRetries : nat := 3.

(** The query of one attempt. *)
Definition boundingBoxesQuery (state : string) : Query.t :=
  Query.limit 1
    (Query.ilike "STATE_NAME" state
      (Query.select "*"
        (Query.from "Bounding Boxes"))).

(** How one pass through the loop body leaves the [try] statement: by
    [break], or past the [catch] block. *)
Inductive LoopExit : Type := Break | Fallthrough.

(** [!boundingBoxes || boundingBoxes.length === 0] *)
Definition null_or_empty (v : option (list Row.t)) : bool :=
  match v with
  | None => true
  | Some rows => Nat.eqb (length rows) 0
  end.

Section Lookup.

Variable store : Store.
Variable state : string.

(** The [try] block of the loop body. *)
Definition try_block : M LoopExit :=
  attempt ← get_attempt;
  console_log ("Attempt " +:+ decimal_of_nat attempt
               +:+ ": Querying bounding boxes for state: " +:+ state);;
  response ← await_query store (boundingBoxesQuery state);
  match error response with
  | Some error => throw (ThrownPostgrest error)
  | None =>
      set_boundingBoxes (data response);;
      boundingBoxes ← get_boundingBoxes;
      console_log_value ("Attempt " +:+ decimal_of_nat attempt
                         +:+ ": Query result:") boundingBoxes;;
      if null_or_empty boundingBoxes then
        console_warn ("Attempt " +:+ decimal_of_nat attempt
                      +:+ ": No bounding boxes found for state: " +:+ state);;
        throw (ThrownError ("No bounding boxes found for state: " +:+ state))
      else mret Break
  end.

(** The [catch (err)] block. *)
Definition catch_block (err : Thrown) : M LoopExit :=
  attempt ← get_attempt;
  if (maxRetries <=? attempt)%nat then
    console_error ("Failed after " +:+ decimal_of_nat maxRetries
                   +:+ " attempts: " +:+ message_of err);;
    throw err
  else mret Fallthrough.

(** [while (attempt < maxRetries) { attempt++; try ... catch ... }]; the
    fuel bounds the number of passes. *)
Fixpoint retry_loop (fuel : nat) : M unit :=
  attempt ← get_attempt;
  if (attempt <? maxRetries)%nat then
    match fuel with
    | O => pending
    | S fuel' =>
        set_attempt (S attempt);;
        exit ← try_catch try_block catch_block;
        match exit with
        | Break => mret tt
        | Fallthrough => retry_loop fuel'
        end
    end
  else mret tt.

(** The declarations of the locals and the loop. *)
Definition retry : M unit :=
  set_attempt 0;;
  set_boundingBoxes None;;
  retry_loop maxRetries.

(** The look-up: the loop and the check that follows it; it yields the
    rows the subdivision works on. *)
Definition lookup : M (list Row.t) :=
  retry;;
  boundingBoxes ← get_boundingBoxes;
  match boundingBoxes with
  | None => throw (ThrownError "Bounding boxes data is null")
  | Some rows => mret rows
  end.

End Lookup.

(** *** The searches *)

(** The request of one quadrant: south-west and north-east corners, and the
    category. *)
Definition search_request (box : Quadrant.t) : PlaceSearchRequest :=
  {| bounds :=
       {| south_west := {| latitude := Quadrant.y_min box;
                           longitude := Quadrant.x_min box |};
          north_east := {| latitude := Quadrant.y_max box;
                           longitude := Quadrant.x_max box |} |};
     type := "restaurant" |}.

(** [service.nearbySearch(request, callback)]: the request goes out; the
    callback runs later.  The [Map] and the [PlacesService] through which the
    call is made hold nothing the tool reads. *)
Definition nearbySearch (request : PlaceSearchRequest) : M unit := fun s =>
  (Normal tt, {| attempt := attempt s; boundingBoxes := boundingBoxes s;
                 console := console s; queries := queries s;
                 searches := searches s ++ [request] |}).

(** The callback: the value it passes to [resolve]. *)
Definition on_results (args : CallbackArgs) : M (list string) :=
  let '(results, status) := args in
  match String.eqb status OK, results with
  | true, Some results =>
      let placeIds := map place_id results in
      mret placeIds
  | _, _ =>
      console_error ("Error searching for places: " +:+ status);;
      mret []
  end.

(** The promises [Promise.all] waits for, one slot per search, in the order
    of the array; a slot is filled by the first [resolve] of its promise. *)
Abbreviation Slots := (list (option (list string))).

Definition resolve (i : nat) (value : list string) (slots : Slots) : Slots :=
  match slots !! i with
  | Some None => <[i := Some value]> slots
  | _ => slots
  end.

(** All slots filled: the array [Promise.all] resolves with. *)
Fixpoint settled (slots : Slots) : option (list (list string)) :=
  match slots with
  | [] => Some []
  | None :: _ => None
  | Some v :: rest =>
      match settled rest with
      | Some vs => Some (v :: vs)
      | None => None
      end
  end.

Section Search.

Variable provider : Provider.

(** The provider invokes the callbacks in its own order. *)
Fixpoint deliver (requests : list PlaceSearchRequest) (order : list nat)
    (slots : Slots) : M Slots :=
  match order with
  | [] => mret slots
  | i :: later =>
      match requests !! i with
      | Some request =>
          placeIds ← on_results (respond provider i request);
          deliver requests later (resolve i placeIds slots)
      | None => deliver requests later slots
      end
  end.

(** [await Promise.all(dividedBoundingBoxes.map(async (box) => ...))]:
    every search is issued, in the order of the array, before any callback
    runs; the result is there once every promise is resolved. *)
Definition searchResults (divided : list Quadrant.t)
    : M (list (list string)) :=
  let requests := map search_request divided in
  mapM nearbySearch requests;;
  slots ← deliver requests (schedule provider (length requests))
                  (replicate (length requests) None);
  match settled slots with
  | Some values => mret values
  | None => pending
  end.

End Search.

(** The tool function. *)
Definition boundingBoxesTool (store : Store) (provider : Provider)
    (input : BoundingBoxInput) : M (list string) :=
  let state := state input in
  boundingBoxes ← lookup store state;
  let divided := dividedBoundingBoxes boundingBoxes in
  searchResults ← searchResults provider divided;
  mret (concat searchResults).

(** One call of the tool. *)
Definition run (store : Store) (provider : Provider) (input : BoundingBoxInput)
    : Completion (list string) * Frame :=
  boundingBoxesTool store provider input initial.

(** ** Vocabulary of the properties *)

(** What the store answers to the n-th query of a call. *)
Definition answer (store : Store) (state : string) (n : nat) : Settled :=
  store n (boundingBoxesQuery state).

(** The query errors: the awaited promise is rejected, or the response
    carries an error object. *)
Definition query_errors (a : Settled) : bool :=
  match a with
  | Rejected _ => true
  | Fulfilled r => match error r with Some _ => true | None => false end
  end.

(** The query returns zero rows: no data, or an empty array. *)
Definition returns_zero_rows (a : Settled) : bool :=
  match a with
  | Rejected _ => false
  | Fulfilled r => null_or_empty (data r)
  end.

(** An attempt fails iff its query errors or returns zero rows. *)
Definition attempt_fails (a : Settled) : bool :=
  query_errors a || returns_zero_rows a.

(** The value an attempt throws inside the [try] block, if it throws. *)
Definition attempt_error (state : string) (a : Settled) : option Thrown :=
  match a with
  | Rejected reason => Some (ThrownRejection reason)
  | Fulfilled r =>
      match error r with
      | Some e => Some (ThrownPostgrest e)
      | None =>
          if null_or_empty (data r)
          then Some (ThrownError ("No bounding boxes found for state: " +:+ state))
          else None
      end
  end.

(** [haystack.includes(needle)] *)
Fixpoint includes (haystack needle : string) : bool :=
  String.prefix needle haystack
  || match haystack with
     | EmptyString => false
     | String _ rest => includes rest needle
     end.

(** The contribution of one search to the output, as the specification
    words it: the ids in provider order when the provider reports OK with
    results, nothing otherwise. *)
Definition contribution (args : CallbackArgs) : list string :=
  match args with
  | (Some results, status) =>
      if String.eqb status OK then map place_id results else []
  | (None, _) => []
  end.

(** Every callback is invoked: each of the [n] searches occurs in the order
    of invocation. *)
Definition calls_back (provider : Provider) : Prop :=
  forall n i, i < n -> In i (schedule provider n).

(** The line the [catch] block logs before it rethrows. *)
Definition failed_line (err : Thrown) : LogEntry :=
  {| level := LevelError;
     text := "Failed after " +:+ decimal_of_nat maxRetries
             +:+ " attempts: " +:+ message_of err;
     printed := None |}.

(** [attempt++] *)
Definition bump (s : Frame) : Frame :=
  {| attempt := S (attempt s); boundingBoxes := boundingBoxes s;
     console := console s; queries := queries s; searches := searches s |}.

(** Frames that differ in their console only. *)
Definition same_but_console (s s' : Frame) : Prop :=
  attempt s' = attempt s /\ boundingBoxes s' = boundingBoxes s /\
  queries s' = queries s /\ searches s' = searches s.

(** The value each promise resolves with, in the order of the requests. *)
Definition values (provider : Provider) (requests : list PlaceSearchRequest)
    : list (list string) :=
  imap (fun i request => contribution (respond provider i request)) requests.

(** A slot that holds a value, and slots that hold nothing but the values of
    their own promises. *)
Definition filled (slots : Slots) (i : nat) : Prop :=
  exists v, slots !! i = Some (Some v).

Definition sound (provider : Provider) (requests : list PlaceSearchRequest)
    (slots : Slots) : Prop :=
  length slots = length requests /\
  forall i v, slots !! i = Some (Some v) -> values provider requests !! i = Some v.

(** The two ways a look-up can end when the store has answered [n0] queries
    before it starts: the first attempt that does not fail gives its rows, or
    all [maxRetries] attempts fail and the error of the last one is thrown
    after it has been logged. *)
Inductive lookup_ends (store : Store) (state : string) (s : Frame)
    : Completion (list Row.t) * Frame -> Prop :=
| ends_found (k : nat) (rows : list Row.t) (s' : Frame) :
    k < maxRetries ->
    (forall i, i < k ->
       attempt_fails (answer store state (length (queries s) + i)) = true) ->
    answer store state (length (queries s) + k)
      = Fulfilled {| data := Some rows; error := None |} ->
    rows <> [] ->
    boundingBoxes s' = Some rows ->
    attempt s' = k + 1 ->
    queries s' = queries s ++ replicate (k + 1) (boundingBoxesQuery state) ->
    searches s' = searches s ->
    lookup_ends store state s (Normal rows, s')
| ends_exhausted (err : Thrown) (before : list LogEntry) (s' : Frame) :
    (forall i, i < maxRetries ->
       attempt_fails (answer store state (length (queries s) + i)) = true) ->
    attempt_error state
      (answer store state (length (queries s) + (maxRetries - 1))) = Some err ->
    attempt s' = maxRetries ->
    queries s' = queries s ++ replicate maxRetries (boundingBoxesQuery state) ->
    searches s' = searches s ->
    console s' = before ++ [failed_line err] ->
    lookup_ends store state s (Throw err, s').

(** ** What the console shows *)

(** The lines of the attempt numbered [n]: the line before the query, the
    line with the result and the warning for a result without rows. *)
Definition querying_line (state : string) (n : nat) : LogEntry :=
  {| level := LevelLog;
     text := "Attempt " +:+ decimal_of_nat n
             +:+ ": Querying bounding boxes for state: " +:+ state;
     printed := None |}.

Definition result_line (n : nat) (v : option (list Row.t)) : LogEntry :=
  {| level := LevelLog;
     text := "Attempt " +:+ decimal_of_nat n +:+ ": Query result:";
     printed := Some v |}.

Definition no_rows_line (state : string) (n : nat) : LogEntry :=
  {| level := LevelWarn;
     text := "Attempt " +:+ decimal_of_nat n
             +:+ ": No bounding boxes found for state: " +:+ state;
     printed := None |}.

(** What the attempt numbered [n] logs inside the [try] block when the store
    answers [a]: a query that errors leaves the first line only. *)
Definition attempt_lines (state : string) (n : nat) (a : Settled)
    : list LogEntry :=
  querying_line state n ::
  match a with
  | Rejected _ => []
  | Fulfilled r =>
      match error r with
      | Some _ => []
      | None =>
          result_line n (data r) ::
          (if null_or_empty (data r) then [no_rows_line state n] else [])
      end
  end.

(** The lines of the attempts numbered [1] to [n], in this order. *)
Definition attempts_lines (store : Store) (state : string) (n : nat)
    : list LogEntry :=
  flat_map (fun i => attempt_lines state (S i) (answer store state i)) (seq 0 n).

Definition is_error (e : LogEntry) : bool :=
  match level e with
  | LevelError => true
  | _ => false
  end.

(** [!(status === OK && results)]: the search takes the [else] branch of its
    callback. *)
Definition search_failed (args : CallbackArgs) : bool :=
  match args with
  | (Some _, status) => negb (String.eqb status OK)
  | (None, _) => true
  end.

Definition search_error_line (status : PlacesServiceStatus) : LogEntry :=
  {| level := LevelError;
     text := "Error searching for places: " +:+ status;
     printed := None |}.

(** What the callbacks log when they are invoked in the order [order]. *)
Definition callbacks_lines (provider : Provider)
    (requests : list PlaceSearchRequest) (order : list nat) : list LogEntry :=
  flat_map
    (fun i =>
       match requests !! i with
       | Some request =>
           if search_failed (respond provider i request)
           then [search_error_line (snd (respond provider i request))]
           else []
       | None => []
       end)
    order.

(** A row that passes the null check of the subdivision. *)
Definition complete (box : Row.t) : bool :=
  match Row.y_min box, Row.y_max box, Row.x_min box, Row.x_max box with
  | Some _, Some _, Some _, Some _ => true
  | _, _, _, _ => false
  end.

(** A quadrant whose bounds are in order and lie between two numbers. *)
Definition ordered_within (low high : number) (q : Quadrant.t) : Prop :=
  Num.leb low (Quadrant.y_min q) = true /\
  Num.leb (Quadrant.y_min q) (Quadrant.y_max q) = true /\
  Num.leb (Quadrant.y_max q) high = true /\
  Num.leb low (Quadrant.x_min q) = true /\
  Num.leb (Quadrant.x_min q) (Quadrant.x_max q) = true /\
  Num.leb (Quadrant.x_max q) high = true.

Definition representable_bounds (q : Quadrant.t) : Prop :=
  Num.representable (Quadrant.y_min q) /\ Num.representable (Quadrant.y_max q) /\
  Num.representable (Quadrant.x_min q) /\ Num.representable (Quadrant.x_max q).

(** ** A table behind the store *)

(** Modelled from the spec: the keyed store is an external collaborator,
    "queried by case-insensitive pattern match on a state-name field, limited
    to 1 row"; how it evaluates a query is not part of the sources.  The
    operator is the one the query names, [ilike]: the pattern match [ILIKE]
    of the database behind the store, reached through its REST interface.
    In a pattern [%] stands for any run of characters and [_] for any single
    one, [\] makes the next character literal, and the interface reads [*]
    as [%]; letters are compared without regard to case.  Letters outside the
    ASCII alphabet are compared as they are: how the database folds them
    depends on its locale. *)
Module Table.

(** [lower] on a letter of the ASCII alphabet; other characters are left
    as they are. *)
Definition lower (c : ascii) : ascii :=
  let n := nat_of_ascii c in
  if (65 <=? n)%nat && (n <=? 90)%nat then ascii_of_nat (n + 32) else c.

Fixpoint lowercase (s : string) : string :=
  match s with
  | EmptyString => EmptyString
  | String c rest => String (lower c) (lowercase rest)
  end.

(** The request: [*] in the pattern is an alias of [%]. *)
Definition star (c : ascii) : ascii :=
  if Ascii.eqb c "*" then "%"%char else c.

Fixpoint stars (s : string) : string :=
  match s with
  | EmptyString => EmptyString
  | String c rest => String (star c) (stars rest)
  end.

(** Texts are UTF-8: a character is a byte followed by its continuation
    bytes, [10xxxxxx]. *)
Definition is_continuation (c : ascii) : bool :=
  let n := nat_of_ascii c in (128 <=? n)%nat && (n <? 192)%nat.

Fixpoint skip_continuation (t : string) : string :=
  match t with
  | EmptyString => EmptyString
  | String a t' => if is_continuation a then skip_continuation t' else t
  end.

Definition next_char (t : string) : string :=
  match t with
  | EmptyString => EmptyString
  | String _ t' => skip_continuation t'
  end.

(** How a match ends: the text matches, it does not, it is too short for
    the pattern whatever is tried next, or the pattern is refused. *)
Inductive Match : Type := LIKE_TRUE | LIKE_FALSE | LIKE_ABORT | LIKE_ERROR.

(** The text is exhausted: what is left of the pattern must be [%]s. *)
Fixpoint trailing (p : string) : Match :=
  match p with
  | EmptyString => LIKE_TRUE
  | String c p' => if Ascii.eqb c "%" then trailing p' else LIKE_ABORT
  end.

(** After a [%]: the places of the text, character by character, where the
    next literal character of the pattern occurs and the rest may match. *)
Fixpoint scan (inside : bool) (firstpat : ascii) (rest : string -> Match)
    (t : string) : Match :=
  match t with
  | EmptyString => LIKE_ABORT
  | String a t' =>
      if inside && is_continuation a then scan true firstpat rest t'
      else if Ascii.eqb a firstpat then
        match rest t' with
        | LIKE_FALSE => scan true firstpat rest t'
        | matched => matched
        end
      else scan true firstpat rest t'
  end.

(** [LIKE]: [%] matches any run of characters, [_] any single character,
    [\] makes the next character of the pattern literal, and a pattern that
    ends with [\] is an error once the match gets there. *)
Fixpoint match_text (p : string) (t : string) {struct p} : Match :=
  match t with
  | EmptyString => trailing p
  | String a t' =>
      match p with
      | EmptyString => LIKE_FALSE
      | String c p' =>
          if Ascii.eqb c "\" then
            match p' with
            | EmptyString => LIKE_ERROR
            | String e p'' =>
                if Ascii.eqb e a then match_text p'' t' else LIKE_FALSE
            end
          else if Ascii.eqb c "%" then after_percent p' t
          else if Ascii.eqb c "_" then match_text p' (next_char t)
          else if Ascii.eqb c a then match_text p' t'
          else LIKE_FALSE
      end
  end
with after_percent (p : string) (t : string) {struct p} : Match :=
  match p with
  | EmptyString => LIKE_TRUE
  | String c p' =>
      if Ascii.eqb c "%" then after_percent p' t
      else if Ascii.eqb c "_" then
        match t with
        | EmptyString => LIKE_ABORT
        | String _ _ => after_percent p' (next_char t)
        end
      else if Ascii.eqb c "\" then
        match p' with
        | EmptyString => LIKE_ERROR
        | String e p'' => scan false e (match_text p'') t
        end
      else scan false c (match_text p') t
  end.

(** The answer of the operator: [None] for a pattern that is refused. *)
Definition verdict (m : Match) : option bool :=
  match m with
  | LIKE_TRUE => Some true
  | LIKE_ERROR => None
  | _ => Some false
  end.

(** [ILIKE]: the match of the two sides in lower case. *)
Definition ilike (pattern value : string) : option bool :=
  verdict (match_text (lowercase (stars pattern)) (lowercase value)).

(** A text of the ASCII alphabet. *)
Fixpoint is_ascii (s : string) : bool :=
  match s with
  | EmptyString => true
  | String c rest => (nat_of_ascii c <? 128)%nat && is_ascii rest
  end.

(** An ASCII character that means nothing to the pattern language: none of
    [%], [_], [*] and [\]; and a text of such characters. *)
Definition plain_char (c : Ascii.ascii) : bool :=
  (nat_of_ascii c <? 128)%nat
  && negb (Ascii.eqb c "%") && negb (Ascii.eqb c "_")
  && negb (Ascii.eqb c "*") && negb (Ascii.eqb c "\").

Fixpoint plain (s : string) : bool :=
  match s with
  | EmptyString => true
  | String c rest => plain_char c && plain rest
  end.

Definition field (column : string) (row : Row.t) : option string :=
  if String.eqb column "STATE_NAME" then Row.STATE_NAME row
  else if String.eqb column "COUNTY_NAME" then Row.COUNTY_NAME row
  else None.

(** One filter on one row: a row without a value in the column does not
    pass; [None] when the pattern is refused. *)
Definition passes (row : Row.t) (f : Query.Filter) : option bool :=
  match f with
  | Query.Ilike column pattern =>
      match field column row with
      | Some value => ilike pattern value
      | None => Some false
      end
  end.

(** The filters of a query on one row, in their order, up to the first that
    the row does not pass. *)
Fixpoint all_pass (row : Row.t) (filters : list Query.Filter) : option bool :=
  match filters with
  | [] => Some true
  | f :: later =>
      match passes row f with
      | Some true => all_pass row later
      | verdict => verdict
      end
  end.

Definition selected (q : Query.t) (row : Row.t) : option bool :=
  all_pass row (Query.filters q).

(** The scan of the table, in table order: it stops when the limit is
    reached, and fails when a row cannot be evaluated. *)
Fixpoint fetch (q : Query.t) (room : option nat) (table : list Row.t)
    : option (list Row.t) :=
  match room, table with
  | Some 0, _ => Some []
  | _, [] => Some []
  | _, row :: rest =>
      match selected q row with
      | Some true => cons row <$> fetch q (Nat.pred <$> room) rest
      | Some false => fetch q room rest
      | None => None
      end
  end.

Definition refused : PostgrestError :=
  {| pg_message := "LIKE pattern must not end with escape character";
     pg_code := "22025" |}.

(** The response to a query. *)
Definition evaluate (table : list Row.t) (q : Query.t) : Response :=
  match fetch q (Query.row_limit q) table with
  | Some rows => {| data := Some rows; error := None |}
  | None => {| data := None; error := Some refused |}
  end.

(** A store that holds a fixed table. *)
Definition store (table : list Row.t) : Store :=
  fun _ q => Fulfilled (evaluate table q).

End Table.

(** ** Scenarios *)

Module Scenario.

(** Answers of a store. *)
Definition rows_found (rows : list Row.t) : Settled :=
  Fulfilled {| data := Some rows; error := None |}.
Definition no_rows : Settled :=
  Fulfilled {| data := Some []; error := None |}.
Definition failure (message : string) : Settled :=
  Fulfilled {| data := None;
               error := Some {| pg_message := message; pg_code := "500" |} |}.

(** A store that gives the listed answers in turn, then [otherwise]. *)
Definition scripted (answers : list Settled) (otherwise : Settled) : Store :=
  fun n _ => nth n answers otherwise.

(** The box of the end-to-end example:
    [{y_min: 32.5, y_max: 42.0, x_min: -124.4, x_max: -114.1,
      COUNTY_NAME: null}]. *)
Definition california : Row.t :=
  Row.mk (Some "California") None
    (Some (Num.decimal 325 10)) (Some (Num.decimal 420 10))
    (Some (Num.decimal (-1244) 10)) (Some (Num.decimal (-1141) 10)).

Definition california_extent : Quadrant.t :=
  Quadrant.mk None (Num.decimal 325 10) (Num.decimal 420 10)
    (Num.decimal (-1244) 10) (Num.decimal (-1141) 10).

(** A row whose northern bound is null. *)
Definition partial_row : Row.t :=
  Row.mk (Some "Nevada") (Some "Nye")
    (Some (Num.of_Z 35)) None (Some (Num.of_Z (-120))) (Some (Num.of_Z (-114))).

(** A box with its latitude bounds swapped. *)
Definition inverted : Row.t :=
  Row.mk (Some "Utah") None
    (Some (Num.of_Z 42)) (Some (Num.of_Z 37))
    (Some (Num.of_Z (-114))) (Some (Num.of_Z (-109))).

(** A box whose latitude bounds are numbers so large that their sum is
    beyond the largest finite number: [1e308] and [1.5e308]. *)
Definition huge : Row.t :=
  Row.mk None None
    (Some (Num.of_Z (10 ^ 308))) (Some (Num.of_Z (15 * 10 ^ 307)))
    (Some (Num.of_Z 0)) (Some (Num.of_Z 1)).

Definition huge_extent : Quadrant.t :=
  Quadrant.mk None (Num.of_Z (10 ^ 308)) (Num.of_Z (15 * 10 ^ 307))
    (Num.of_Z 0) (Num.of_Z 1).

(** A point north of [huge]: the largest finite number as latitude. *)
Definition far_north : Point :=
  {| lat := SFmax_float Num.prec Num.emax; lng := Num.of_Z 0 |}.

(** A box whose southern bound is the number next above its northern bound:
    [y_min = 1 + 2 ^ -52] and [y_max = 1]; and a point at latitude [1]. *)
Definition just_inverted : Row.t :=
  Row.mk None None
    (Some (Num.decimal (2 ^ 52 + 1) (2 ^ 52))) (Some (Num.of_Z 1))
    (Some (Num.of_Z 0)) (Some (Num.of_Z 1)).

Definition just_inverted_extent : Quadrant.t :=
  Quadrant.mk None (Num.decimal (2 ^ 52 + 1) (2 ^ 52)) (Num.of_Z 1)
    (Num.of_Z 0) (Num.of_Z 1).

Definition at_one : Point := {| lat := Num.of_Z 1; lng := Num.of_Z 0 |}.

Definition place (id : string) : PlaceResult :=
  {| place_id := id; place_name := "" |}.

(** The provider of the aggregation example: [[a, b]], a failure, [[c]]
    and an empty success, called back out of order. *)
Definition four_answers : Provider :=
  {| respond := fun i _ =>
       match i with
       | 0 => (Some [place "a"; place "b"], OK)
       | 1 => (None, "UNKNOWN_ERROR")
       | 2 => (Some [place "c"], OK)
       | _ => (Some [], OK)
       end;
     schedule := fun n => rev (seq 0 n) |}.

(** A provider for which every search fails. *)
Definition unavailable : Provider :=
  {| respond := fun _ _ => (None, "REQUEST_DENIED");
     schedule := fun n => seq 0 n |}.

(** A table with two rows that match the same pattern. *)
Definition two_carolinas : list Row.t :=
  [ Row.mk (Some "Georgia") None None None None None;
    Row.mk (Some "North Carolina") (Some "Wake") None None None None;
    Row.mk (Some "South Carolina") (Some "Aiken") None None None None ].

(** A provider that never invokes the callback of the last search. *)
Definition forgetful : Provider :=
  {| respond := fun _ _ => (Some [place "a"], OK);
     schedule := fun n => seq 0 (n - 1) |}.

(** A provider that reports no results with the status [OK] for the first
    search and invokes the callbacks last to first. *)
Definition hollow : Provider :=
  {| respond := fun i _ =>
       match i with
       | 0 => (None, OK)
       | 1 => (None, "ZERO_RESULTS")
       | _ => (Some [place "a"], OK)
       end;
     schedule := fun n => rev (seq 0 n) |}.

(** A box that is a single point, and one that is a segment of a parallel. *)
Definition point_box : Row.t :=
  Row.mk (Some "Four Corners") None
    (Some (Num.of_Z 37)) (Some (Num.of_Z 37))
    (Some (Num.of_Z (-109))) (Some (Num.of_Z (-109))).

Definition point_extent : Quadrant.t :=
  Quadrant.mk None (Num.of_Z 37) (Num.of_Z 37) (Num.of_Z (-109)) (Num.of_Z (-109)).

(** A provider that reports the same place for every search. *)
Definition same_place : Provider :=
  {| respond := fun _ _ => (Some [place "a"], OK);
     schedule := fun n => seq 0 n |}.

End Scenario.

(** * Properties *)

(** ** Order of numbers *)

Module NumFacts.
Import Num.

Ltac compare_cases :=
  repeat match goal with
  | |- context [Z.compare ?a ?b] => destruct (Z.compare_spec a b)
  | H : context [Z.compare ?a ?b] |- _ => destruct (Z.compare_spec a b)
  | |- context [Pos.compare_cont Eq ?a ?b] =>
      change (Pos.compare_cont Eq a b) with (Pos.compare a b);
      destruct (Pos.compare_spec a b)
  | H : context [Pos.compare_cont Eq ?a ?b] |- _ =>
      change (Pos.compare_cont Eq a b) with (Pos.compare a b) in H;
      destruct (Pos.compare_spec a b)
  end.

Ltac order_cases :=
  unfold leb, eqb, ltb, SFleb, SFeqb, SFltb, SFcompare in *;
  repeat match goal with
  | x : number |- _ => destruct x as [[]|[]| |[] ? ?]
  | x : spec_float |- _ => destruct x as [[]|[]| |[] ? ?]
  end;
  simpl in *; try discriminate; try reflexivity; try tauto;
  compare_cases; simpl in *; subst;
  try discriminate; try reflexivity; try tauto; try lia.

Lemma leb_trans (a b c : number) :
  leb a b = true -> leb b c = true -> leb a c = true.
Proof. intros H1 H2. order_cases. Qed.

Lemma leb_total (a b : number) :
  is_nan a = false -> is_nan b = false -> leb a b = true \/ leb b a = true.
Proof. intros H1 H2. order_cases. Qed.

Lemma leb_antisym (a b : number) :
  leb a b = true -> leb b a = true -> eqb a b = true.
Proof. intros H1 H2. order_cases. Qed.

Lemma leb_not_nan (a b : number) :
  leb a b = true -> is_nan a = false /\ is_nan b = false.
Proof. intros H1. order_cases. Qed.

Lemma leb_refl (a : number) : is_nan a = false -> leb a a = true.
Proof. intros H1. order_cases. Qed.
End NumFacts.


Lemma inside_spec (p : Point) (q : Quadrant.t) :
  inside p q = true <->
  Num.leb (Quadrant.y_min q) (lat p) = true /\
  Num.leb (lat p) (Quadrant.y_max q) = true /\
  Num.leb (Quadrant.x_min q) (lng p) = true /\
  Num.leb (lng p) (Quadrant.x_max q) = true.
Proof.
  unfold inside. rewrite !andb_true_iff. tauto.
Qed.

Section Partition.
Variables (label : option string) (y_min y_max x_min x_max : number).
Let y_mid := midpoint y_min y_max.
Let x_mid := midpoint x_min x_max.
Hypothesis Hy1 : Num.leb y_min y_mid = true.
Hypothesis Hy2 : Num.leb y_mid y_max = true.
Hypothesis Hx1 : Num.leb x_min x_mid = true.
Hypothesis Hx2 : Num.leb x_mid x_max = true.

Let quadrants :=
  [ Quadrant.mk label y_min y_mid x_min x_mid;
    Quadrant.mk label y_min y_mid x_mid x_max;
    Quadrant.mk label y_mid y_max x_min x_mid;
    Quadrant.mk label y_mid y_max x_mid x_max ].

Lemma quadrants_cover :
  covers (Quadrant.mk label y_min y_max x_min x_max) quadrants.
Proof.
  intros [py px]. split.
  - rewrite inside_spec. simpl. intros (Ha & Hb & Hc & Hd).
    destruct (NumFacts.leb_not_nan _ _ Hy1) as [_ Nym].
    destruct (NumFacts.leb_not_nan _ _ Hx1) as [_ Nxm].
    destruct (NumFacts.leb_not_nan _ _ Ha) as [_ Npy].
    destruct (NumFacts.leb_not_nan _ _ Hc) as [_ Npx].
    destruct (NumFacts.leb_total py y_mid Npy Nym) as [Ly|Ly];
    destruct (NumFacts.leb_total px x_mid Npx Nxm) as [Lx|Lx].
    + eexists; split; [left; reflexivity|]. rewrite inside_spec. simpl. tauto.
    + eexists; split; [right; left; reflexivity|]. rewrite inside_spec. simpl. tauto.
    + eexists; split; [right; right; left; reflexivity|]. rewrite inside_spec. simpl. tauto.
    + eexists; split; [right; right; right; left; reflexivity|]. rewrite inside_spec. simpl. tauto.
  - intros [q [Hq H]]. rewrite inside_spec in *. simpl in *.
    destruct Hq as [<-|[<-|[<-|[<-|[]]]]]; simpl in H;
      destruct H as (Ha & Hb & Hc & Hd);
      repeat split; eauto using NumFacts.leb_trans.
Qed.

Lemma quadrants_meet_on_cuts : meet_on_cuts y_mid x_mid quadrants.
Proof.
  intros i j qi qj [py px] Hij Hi Hj Pi Pj.
  rewrite inside_spec in Pi, Pj.
  destruct i as [|[|[|[|i]]]]; simpl in Hi; try discriminate;
    try (destruct i; discriminate);
  destruct j as [|[|[|[|j]]]]; simpl in Hj; try discriminate;
    try (destruct j; discriminate);
  try congruence;
  injection Hi as <-; injection Hj as <-; simpl in *;
  destruct Pi as (Ia & Ib & Ic & Id); destruct Pj as (Ja & Jb & Jc & Jd);
  solve [ left; apply NumFacts.leb_antisym; assumption
        | right; apply NumFacts.leb_antisym; assumption ].
Qed.
End Partition.

(** ** Arithmetic of numbers *)

Module FloatFacts.
Import Float.
#[local] Open Scope Z_scope.

Lemma digits2_size (m : positive) : digits2_pos m = Pos.size m.
Proof.
  induction m as [m IH|m IH|]; cbn [digits2_pos Pos.size]; rewrite ?IH;
    reflexivity.
Qed.

Lemma digits2_bounds (m : positive) :
  2 ^ (Zpos (digits2_pos m) - 1) <= Zpos m < 2 ^ Zpos (digits2_pos m).
Proof.
  rewrite digits2_size. split.
  - pose proof (Pos.size_le m) as H.
    assert (H' : Zpos (2 ^ Pos.size m) <= Zpos m~0) by exact H.
    rewrite Pos2Z.inj_pow in H'.
    assert (E : 2 ^ Zpos (Pos.size m) = 2 * 2 ^ (Zpos (Pos.size m) - 1)).
    { rewrite <- Z.pow_succ_r by lia. f_equal. lia. }
    rewrite Pos2Z.inj_xO in H'. lia.
  - pose proof (Pos.size_gt m) as H.
    assert (H' : Zpos m < Zpos (2 ^ Pos.size m)) by exact H.
    rewrite Pos2Z.inj_pow in H'. exact H'.
Qed.

Lemma Zdigits2_bounds (m : Z) : 0 < m ->
  2 ^ (Zdigits2 m - 1) <= m < 2 ^ Zdigits2 m.
Proof. destruct m; try lia. intros _. apply digits2_bounds. Qed.

Lemma Zdigits2_pos (m : Z) : 0 < m -> 0 < Zdigits2 m.
Proof. destruct m; cbn; lia. Qed.

(** digits are determined by the bounds *)
Lemma Zdigits2_unique (m d : Z) : 0 < m -> 2 ^ (d - 1) <= m < 2 ^ d -> Zdigits2 m = d.
Proof.
  intros Hm [Hlo Hhi]. pose proof (Zdigits2_bounds m Hm) as [Dlo Dhi].
  pose proof (Zdigits2_pos m Hm) as Dpos.
  assert (0 < d).
  { destruct (Z.ltb_spec 0 d) as [|Hd]; [assumption|].
    destruct (Z.eqb_spec d 0) as [->|]; [cbn in Hhi; lia|].
    rewrite Z.pow_neg_r in Hhi by lia. lia. }
  destruct (Z.lt_trichotomy (Zdigits2 m) d) as [L|[E|G]]; [|assumption|].
  - assert (2 ^ Zdigits2 m <= 2 ^ (d - 1)) by (apply Z.pow_le_mono_r; lia). lia.
  - assert (2 ^ d <= 2 ^ (Zdigits2 m - 1)) by (apply Z.pow_le_mono_r; lia). lia.
Qed.

(** *** Shifting a mantissa to the right *)

Lemma shr_1_shifted (r : shr_record) : 0 <= shr_m r -> shifted 1 r (shr_1 r).
Proof.
  destruct r as [m r s]. unfold shifted, lossless. cbn [shr_m]. intros Hm.
  change (2 ^ 1) with 2.
  destruct m as [|[p|p|]|p]; try lia; cbn [shr_1 shr_m shr_r shr_s].
  - split; [reflexivity|]. cbn. destruct r, s; cbn; intuition congruence.
  - split.
    + rewrite Pos2Z.inj_xI. apply Z.div_unique with (r := 1); lia.
    + rewrite Pos2Z.inj_xI.
      replace ((2 * Zpos p + 1) mod 2) with 1
        by (apply Z.mod_unique with (q := Zpos p); lia).
      intuition congruence.
  - split.
    + rewrite Pos2Z.inj_xO. apply Z.div_unique with (r := 0); lia.
    + rewrite Pos2Z.inj_xO.
      replace ((2 * Zpos p) mod 2) with 0
        by (apply Z.mod_unique with (q := Zpos p); lia).
      destruct r, s; cbn; intuition congruence.
  - split; [reflexivity|]. change (1 mod 2) with 1.
    split; [intros [? _]; discriminate|intros [_ ?]; discriminate].
Qed.

Lemma mod_mul_zero (m a b : Z) : 0 < a -> 0 < b ->
  m mod (a * b) = 0 <-> m mod a = 0 /\ (m / a) mod b = 0.
Proof.
  intros Ha Hb. rewrite Z.rem_mul_r by lia.
  pose proof (Z.mod_pos_bound m a Ha). pose proof (Z.mod_pos_bound (m / a) b Hb).
  split; [intros E|intros [-> ->]; lia]. split; nia.
Qed.

Lemma shifted_trans (a b : Z) (r1 r2 r3 : shr_record) :
  0 <= a -> 0 <= b ->
  shifted a r1 r2 -> shifted b r2 r3 -> shifted (a + b) r1 r3.
Proof.
  intros Ha Hb [M12 E12] [M23 E23]. unfold shifted.
  assert (0 < 2 ^ a) by (apply Z.pow_pos_nonneg; lia).
  assert (0 < 2 ^ b) by (apply Z.pow_pos_nonneg; lia).
  rewrite Z.pow_add_r by lia. split.
  - rewrite M23, M12. apply Z.div_div; lia.
  - rewrite E23, E12, M12, mod_mul_zero by lia. tauto.
Qed.

Lemma shifted_nonneg (n : Z) (r r' : shr_record) :
  0 <= n -> 0 <= shr_m r -> shifted n r r' -> 0 <= shr_m r'.
Proof.
  intros Hn Hm [-> _]. apply Z.div_pos; [assumption|].
  apply Z.pow_pos_nonneg; lia.
Qed.

Lemma iter_shr_shifted (p : positive) : forall r : shr_record,
  0 <= shr_m r -> shifted (Zpos p) r (SpecFloat.iter_pos shr_1 p r).
Proof.
  induction p as [p IH|p IH|]; intros r Hm; cbn [SpecFloat.iter_pos].
  - pose proof (shr_1_shifted r Hm) as S1.
    pose proof (shifted_nonneg 1 _ _ ltac:(lia) Hm S1) as M1.
    pose proof (IH _ M1) as S2.
    pose proof (shifted_nonneg (Zpos p) _ _ ltac:(lia) M1 S2) as M2.
    pose proof (IH _ M2) as S3.
    replace (Zpos p~1) with (1 + Zpos p + Zpos p) by lia.
    eapply shifted_trans; [lia|lia| |exact S3].
    eapply shifted_trans; [lia|lia|exact S1|exact S2].
  - pose proof (IH _ Hm) as S2.
    pose proof (shifted_nonneg (Zpos p) _ _ ltac:(lia) Hm S2) as M2.
    pose proof (IH _ M2) as S3.
    replace (Zpos p~0) with (Zpos p + Zpos p) by lia.
    eapply shifted_trans; [lia|lia|exact S2|exact S3].
  - apply shr_1_shifted. assumption.
Qed.

(** [shr] by a shift that is not negative. *)
Lemma shr_shifted (r : shr_record) (e n : Z) :
  0 <= shr_m r -> 0 <= n ->
  shifted n r (fst (shr r e n)) /\ snd (shr r e n) = e + n.
Proof.
  intros Hm Hn. unfold shr. destruct n as [|p|p]; try lia; cbn [fst snd].
  - split; [|lia]. unfold shifted. change (2 ^ 0) with 1.
    rewrite Z.div_1_r, Z.mod_1_r. tauto.
  - split; [|reflexivity]. apply iter_shr_shifted. assumption.
Qed.

Lemma lossless_loc (m : Z) (l : location) :
  lossless (shr_record_of_loc m l) <-> l = loc_Exact.
Proof.
  unfold lossless. destruct l as [|[]]; cbn; intuition congruence.
Qed.

Lemma loc_lossless (r : shr_record) :
  loc_of_shr_record r = loc_Exact <-> lossless r.
Proof.
  unfold lossless. destruct r as [m [] []]; cbn; intuition congruence.
Qed.

Lemma shr_m_of_loc (m : Z) (l : location) : shr_m (shr_record_of_loc m l) = m.
Proof. destruct l as [|[]]; reflexivity. Qed.

Lemma round_nearest_even_cases (m : Z) (l : location) :
  (round_nearest_even m l = m \/ round_nearest_even m l = m + 1) /\
  (l = loc_Exact -> round_nearest_even m l = m).
Proof.
  unfold round_nearest_even. destruct l as [|[]]; try destruct (Z.even m);
    split; auto; discriminate.
Qed.

(** *** Values *)

Lemma fexp_max (e : Z) : fexp e = Z.max (e - 53) (-1074).
Proof. reflexivity. Qed.

Lemma canonical_bounds (m e : Z) :
  canonical m e -> -1074 <= e /\ m < 2 ^ 53 /\ (e = -1074 \/ 2 ^ 52 <= m).
Proof.
  intros [Hm Hc]. rewrite fexp_max in Hc.
  pose proof (Zdigits2_bounds m Hm) as [Dlo Dhi].
  pose proof (Zdigits2_pos m Hm) as Dpos.
  assert (Zdigits2 m <= 53) by lia.
  split; [lia|]. split.
  - assert (2 ^ Zdigits2 m <= 2 ^ 53) by (apply Z.pow_le_mono_r; lia). lia.
  - destruct (Z.eq_dec e (-1074)) as [|Hne]; [left; assumption|right].
    assert (Zdigits2 m = 53) as E by lia. rewrite E in Dlo. exact Dlo.
Qed.

Lemma canonical_intro (m e : Z) :
  0 < m -> m < 2 ^ 53 -> -1074 <= e -> (e = -1074 \/ 2 ^ 52 <= m) ->
  canonical m e.
Proof.
  intros Hm Hlt He Hn. split; [assumption|]. rewrite fexp_max.
  pose proof (Zdigits2_bounds m Hm) as [Dlo Dhi].
  pose proof (Zdigits2_pos m Hm) as Dpos.
  assert (Zdigits2 m <= 53).
  { destruct (Z.le_gt_cases (Zdigits2 m) 53) as [|G]; [assumption|].
    assert (2 ^ 53 <= 2 ^ (Zdigits2 m - 1)) by (apply Z.pow_le_mono_r; lia). lia. }
  destruct Hn as [->|Hn]; [clear -H; lia|].
  assert (Zdigits2 m = 53) by (apply Zdigits2_unique; [assumption|split; assumption]).
  clear -H0 He. lia.
Qed.

Lemma pow2_pos (k : Z) : 0 <= k -> 0 < 2 ^ k.
Proof. intros. apply Z.pow_pos_nonneg; lia. Qed.

Lemma scaled_shift (m e n : Z) :
  0 <= e + unit_exponent -> 0 <= n ->
  scaled (m * 2 ^ n) e = scaled m (e + n).
Proof.
  intros He Hn. unfold scaled.
  replace (e + n + unit_exponent) with (n + (e + unit_exponent)) by lia.
  rewrite (Z.pow_add_r 2 n (e + unit_exponent)) by lia. ring.
Qed.

Lemma scaled_mono (m m' e : Z) :
  0 <= e + unit_exponent -> m <= m' -> scaled m e <= scaled m' e.
Proof.
  intros He Hm. unfold scaled. pose proof (pow2_pos _ He). nia.
Qed.

(** A canonical number with a smaller exponent is smaller than any normal
    number of exponent [e]. *)
Lemma scaled_below (mf ef e : Z) :
  canonical mf ef -> ef < e -> scaled mf ef < scaled (2 ^ 52) e.
Proof.
  intros Hc He. destruct (canonical_bounds _ _ Hc) as (Hef & Hlt & _).
  unfold scaled, unit_exponent.
  assert (0 < 2 ^ (ef + 1075)) by (apply pow2_pos; lia).
  assert (E : 2 ^ 52 * 2 ^ (e + 1075) = 2 ^ 53 * 2 ^ (e - 1 + 1075)).
  { change (2 ^ 53) with (2 ^ 52 * 2 ^ 1). rewrite <- Z.mul_assoc.
    rewrite <- (Z.pow_add_r 2 1) by lia. do 2 f_equal. lia. }
  rewrite E.
  assert (2 ^ (ef + 1075) <= 2 ^ (e - 1 + 1075)) by (apply Z.pow_le_mono_r; lia).
  assert (0 < 2 ^ 53) by reflexivity.
  destruct Hc as [Hm _]. nia.
Qed.

(** A canonical number with an exponent at least [e] is a multiple of the
    unit of that exponent. *)
Lemma scaled_multiple (mf ef e : Z) :
  -1074 <= e -> e <= ef ->
  scaled mf ef = scaled (mf * 2 ^ (ef - e)) e.
Proof.
  intros He Hef. rewrite scaled_shift by (unfold unit_exponent; lia).
  f_equal. lia.
Qed.

(** *** Rounding *)

(** After the first shift the mantissa has at most 53 bits, and exactly 53
    above the smallest exponent; the value lies between it and its
    successor. *)
Lemma first_shift (mx ex : Z) (lx : location) (X : Z) :
  0 <= mx -> -1074 <= ex -> (0 < mx \/ ex = -1074) ->
  ex <= fexp (Zdigits2 mx + ex) ->
  scaled mx ex <= X < scaled (mx + 1) ex ->
  (lx = loc_Exact <-> X = scaled mx ex) ->
  exists r1 e1,
    shr_fexp Num.prec Num.emax mx ex lx = (r1, e1) /\
    -1074 <= e1 /\
    0 <= shr_m r1 < 2 ^ 53 /\
    (e1 = -1074 \/ 2 ^ 52 <= shr_m r1) /\
    scaled (shr_m r1) e1 <= X < scaled (shr_m r1 + 1) e1 /\
    (lossless r1 <-> X = scaled (shr_m r1) e1).
Proof.
  intros Hmx Hex H0 Hn [Xlo Xhi] Hl.
  unfold shr_fexp. fold (fexp (Zdigits2 mx + ex)).
  set (e1 := fexp (Zdigits2 mx + ex)) in *.
  destruct (shr_shifted (shr_record_of_loc mx lx) ex (e1 - ex)) as [[Hm He] Hs].
  { rewrite shr_m_of_loc. assumption. }
  { lia. }
  destruct (shr (shr_record_of_loc mx lx) ex (e1 - ex)) as [r1 e1'].
  cbn [fst snd] in *. rewrite shr_m_of_loc in *. rewrite lossless_loc in He.
  assert (e1' = e1) as -> by lia. clear Hs.
  exists r1, e1. split; [reflexivity|].
  set (n := e1 - ex) in *.
  assert (Hn0 : 0 <= n) by lia.
  assert (P : 0 < 2 ^ n) by (apply pow2_pos; assumption).
  assert (E1 : -1074 <= e1) by (unfold e1; rewrite fexp_max; lia).
  pose proof (Z.div_mod mx (2 ^ n) ltac:(lia)) as DM.
  pose proof (Z.mod_pos_bound mx (2 ^ n) P) as MB.
  rewrite <- Hm in DM.
  assert (Hm' : 0 <= shr_m r1) by (rewrite Hm; apply Z.div_pos; lia).
  assert (U1 : 0 <= ex + unit_exponent) by (unfold unit_exponent; lia).
  assert (S1 : forall k, scaled k e1 = scaled (k * 2 ^ n) ex).
  { intros k. rewrite scaled_shift by assumption. f_equal. lia. }
  split; [assumption|]. split; [|split; [|split]].
  - split; [assumption|].
    destruct (Z.eq_dec mx 0) as [->|Hpos].
    + rewrite Hm. rewrite Z.div_0_l by lia. reflexivity.
    + assert (Hpos' : 0 < mx) by lia.
      pose proof (Zdigits2_bounds mx Hpos') as [Dlo Dhi].
      pose proof (Zdigits2_pos mx Hpos') as Dpos.
      assert (Zdigits2 mx <= n + 53) by (unfold n, e1; rewrite fexp_max; lia).
      assert (2 ^ Zdigits2 mx <= 2 ^ (n + 53)) by (apply Z.pow_le_mono_r; lia).
      rewrite (Z.pow_add_r 2 n 53) in * by lia. nia.
  - destruct (Z.eq_dec e1 (-1074)) as [|Hne]; [left; assumption|right].
    assert (Hpos : 0 < mx).
    { destruct H0 as [|Hex']; [assumption|].
      destruct (Z.eq_dec mx 0) as [->|]; [|lia].
      unfold e1 in Hne. rewrite fexp_max in Hne. cbn [Zdigits2] in Hne. lia. }
    pose proof (Zdigits2_bounds mx Hpos) as [Dlo Dhi].
    assert (En : Zdigits2 mx - 1 = n + 52) by (unfold n, e1 in *; rewrite fexp_max in *; lia).
    pose proof (Zdigits2_pos mx Hpos) as Dpos.
    rewrite En, (Z.pow_add_r 2 n 52) in Dlo by lia. nia.
  - rewrite !S1. split.
    + eapply Z.le_trans; [|exact Xlo]. apply scaled_mono; [assumption|]. lia.
    + eapply Z.lt_le_trans; [exact Xhi|]. apply scaled_mono; [assumption|]. lia.
  - rewrite He, Hl, S1. unfold scaled in *.
    pose proof (pow2_pos _ U1) as PU. split.
    + intros [-> Hz]. f_equal. lia.
    + intros ->. assert (shr_m r1 * 2 ^ n <= mx) by lia.
      assert (mx <= shr_m r1 * 2 ^ n) by nia.
      split; [f_equal|]; lia.
Qed.

Lemma mul_lt_le (k m p : Z) : 0 < p -> k * p < (m + 1) * p -> k * p <= m * p.
Proof.
  intros Hp H. apply Z.mul_lt_mono_pos_r in H; [|assumption].
  apply Z.mul_le_mono_nonneg_r; lia.
Qed.

Lemma mul_gt_le (k m p : Z) : 0 < p -> m * p < k * p -> (m + 1) * p <= k * p.
Proof.
  intros Hp H. apply Z.mul_lt_mono_pos_r in H; [|assumption].
  apply Z.mul_le_mono_nonneg_r; lia.
Qed.

(** The second shift: it leaves a mantissa of at most 53 bits alone and
    brings [2 ^ 53] back to 53 bits. *)
Lemma second_shift (m1 e1 : Z) :
  -1074 <= e1 -> 0 <= m1 <= 2 ^ 53 ->
  (e1 = -1074 \/ m1 = 0 \/ 2 ^ 52 <= m1) ->
  exists m e,
    shr_m (fst (shr_fexp Num.prec Num.emax m1 e1 loc_Exact)) = m /\
    snd (shr_fexp Num.prec Num.emax m1 e1 loc_Exact) = e /\
    scaled m e = scaled m1 e1 /\ -1074 <= e /\ (m = 0 \/ canonical m e).
Proof.
  intros He [Hlo Hhi] Hn.
  destruct (Z.eq_dec m1 (2 ^ 53)) as [->|Hne].
  - exists (2 ^ 52), (e1 + 1).
    unfold shr_fexp. fold (fexp (Zdigits2 (2 ^ 53) + e1)).
    change (Zdigits2 (2 ^ 53)) with 54. rewrite fexp_max.
    replace (Z.max (54 + e1 - 53) (-1074) - e1) with 1 by lia.
    split; [reflexivity|]. split; [reflexivity|]. split; [|split; [lia|right]].
    + rewrite <- (scaled_shift (2 ^ 52) e1 1) by (unfold unit_exponent; lia).
      reflexivity.
    + apply canonical_intro; try lia; reflexivity.
  - exists m1, e1.
    assert (Hshift : fexp (Zdigits2 m1 + e1) - e1 <= 0).
    { rewrite fexp_max. destruct (Z.eq_dec m1 0) as [->|Hpos]; [cbn; lia|].
      pose proof (Zdigits2_bounds m1 ltac:(lia)) as [Dlo Dhi].
      assert (Zdigits2 m1 <= 53); [|lia].
      destruct (Z.le_gt_cases (Zdigits2 m1) 53) as [|G]; [assumption|].
      assert (2 ^ 53 <= 2 ^ (Zdigits2 m1 - 1)) by (apply Z.pow_le_mono_r; lia).
      lia. }
    unfold shr_fexp. fold (fexp (Zdigits2 m1 + e1)).
    assert (Hshr : shr (shr_record_of_loc m1 loc_Exact) e1
                     (fexp (Zdigits2 m1 + e1) - e1)
                   = (shr_record_of_loc m1 loc_Exact, e1)).
    { unfold shr. destruct (fexp (Zdigits2 m1 + e1) - e1); try reflexivity. lia. }
    rewrite Hshr. cbn [fst snd shr_record_of_loc shr_m].
    repeat split; try assumption; try reflexivity.
    destruct (Z.eq_dec m1 0) as [|Hpos]; [left; assumption|right].
    apply canonical_intro; try lia.
Qed.

(** Rounding to nearest: the result is a canonical number, or zero, that no
    canonical number separates from the value. *)
Lemma binary_round_aux_spec (sx : bool) (mx ex : Z) (lx : location) (X : Z) :
  0 <= mx -> -1074 <= ex -> (0 < mx \/ ex = -1074) ->
  ex <= fexp (Zdigits2 mx + ex) ->
  scaled mx ex <= X < scaled (mx + 1) ex ->
  (lx = loc_Exact <-> X = scaled mx ex) ->
  exists m e,
    binary_round_aux Num.prec Num.emax sx mx ex lx = rounded sx m e /\
    0 <= m /\ -1074 <= e /\ (m = 0 \/ canonical m e) /\
    (forall mf ef, canonical mf ef ->
       scaled mf ef <= X -> scaled mf ef <= scaled m e) /\
    (forall mf ef, canonical mf ef ->
       X <= scaled mf ef -> scaled m e <= scaled mf ef).
Proof.
  intros Hmx Hex H0 Hn HX Hl.
  destruct (first_shift mx ex lx X Hmx Hex H0 Hn HX Hl)
    as (r1 & e1 & Hs1 & He1 & [M1lo M1hi] & N1 & [X1lo X1hi] & Ex1).
  unfold binary_round_aux. rewrite Hs1.
  set (m' := shr_m r1) in *.
  destruct (round_nearest_even_cases m' (loc_of_shr_record r1)) as [Hr Hre].
  rewrite loc_lossless in Hre.
  set (m1 := round_nearest_even m' (loc_of_shr_record r1)) in *.
  destruct (second_shift m1 e1 He1) as (m & e & Hm & He & Hv & Hemin & Hc).
  { lia. }
  { destruct N1 as [|N1]; [left; assumption|right; right; lia]. }
  destruct (shr_fexp Num.prec Num.emax m1 e1 loc_Exact) as [r2 e2]. cbn [fst snd] in *.
  subst e2. rewrite Hm. exists m, e.
  assert (U1 : 0 <= e1 + unit_exponent) by (unfold unit_exponent; lia).
  assert (Hm0 : 0 <= m).
  { destruct Hc as [->|[Hpos _]]; lia. }
  split; [|split; [assumption|split; [assumption|split; [assumption|split]]]].
  - unfold rounded. destruct m; reflexivity || lia.
  - intros mf ef Hf Hle. rewrite Hv.
    apply Z.le_trans with (scaled m' e1); [|apply scaled_mono; [assumption|lia]].
    destruct (Z.le_gt_cases e1 ef) as [Hge|Hlt].
    + rewrite (scaled_multiple mf ef e1) in * by assumption.
      unfold scaled in *. apply mul_lt_le; [apply pow2_pos; assumption|lia].
    + pose proof (scaled_below mf ef e1 Hf Hlt) as Hb.
      destruct N1 as [->|N1]; [destruct (canonical_bounds _ _ Hf); lia|].
      apply Z.lt_le_incl. eapply Z.lt_le_trans; [exact Hb|].
      apply scaled_mono; assumption.
  - intros mf ef Hf Hge. rewrite Hv.
    destruct (Z.eq_dec X (scaled m' e1)) as [Hex1|Hnex].
    + rewrite (Hre (proj2 Ex1 Hex1)). lia.
    + assert (Xgt : scaled m' e1 < X) by lia.
      apply Z.le_trans with (scaled (m' + 1) e1);
        [apply scaled_mono; [assumption|lia]|].
      destruct (Z.le_gt_cases e1 ef) as [Hge1|Hlt].
      * rewrite (scaled_multiple mf ef e1) in * by assumption.
        unfold scaled in *. apply mul_gt_le; [apply pow2_pos; assumption|lia].
      * exfalso. pose proof (scaled_below mf ef e1 Hf Hlt) as Hb.
        destruct N1 as [->|N1]; [destruct (canonical_bounds _ _ Hf); lia|].
        assert (scaled (2 ^ 52) e1 <= scaled m' e1)
          by (apply scaled_mono; assumption).
        lia.
Qed.

(** *** Order and values of numbers *)

Lemma valid_finite (s : bool) (m : positive) (e : Z) :
  Num.representable (S754_finite s m e) <-> canonical (Zpos m) e /\ e <= Num.emax - Num.prec.
Proof.
  unfold Num.representable, valid_binary, bounded, canonical_mantissa, canonical.
  rewrite andb_true_iff, Z.eqb_eq, Z.leb_le. cbn [Zdigits2]. unfold fexp.
  intuition lia.
Qed.

Lemma scaled_pos (m e : Z) : 0 < m -> -1074 <= e -> 0 < scaled m e.
Proof.
  intros Hm He. unfold scaled.
  pose proof (pow2_pos (e + unit_exponent) ltac:(unfold unit_exponent; lia)).
  nia.
Qed.

Lemma canonical_lt (m1 e1 m2 e2 : Z) :
  canonical m1 e1 -> canonical m2 e2 -> e1 < e2 ->
  scaled m1 e1 < scaled m2 e2.
Proof.
  intros H1 H2 He. pose proof (scaled_below m1 e1 e2 H1 He) as Hb.
  destruct (canonical_bounds _ _ H1) as (E1 & _ & _).
  destruct (canonical_bounds _ _ H2) as (E2 & _ & [->|N2]); [lia|].
  eapply Z.lt_le_trans; [exact Hb|].
  apply scaled_mono; [unfold unit_exponent; lia|assumption].
Qed.

Lemma scaled_lt_mono (m1 m2 e : Z) :
  -1074 <= e -> m1 < m2 -> scaled m1 e < scaled m2 e.
Proof.
  intros He Hm. unfold scaled.
  apply Z.mul_lt_mono_pos_r; [apply pow2_pos; unfold unit_exponent; lia|assumption].
Qed.

(** On valid finite numbers the comparison is the order of the values. *)
Lemma leb_sval (x y : spec_float) :
  Num.finite x -> Num.finite y -> Num.representable x -> Num.representable y ->
  (SFleb x y = true <-> sval x <= sval y).
Proof.
  intros Fx Fy Vx Vy. unfold SFleb, SFcompare.
  destruct x as [sx| | |sx mx ex], y as [sy| | |sy my ey];
    try contradiction; cbn [sval].
  - split; [lia|reflexivity].
  - apply valid_finite in Vy. destruct Vy as [Cy _].
    destruct (canonical_bounds _ _ Cy) as (Ey & _ & _).
    pose proof (scaled_pos (Zpos my) ey ltac:(lia) Ey).
    destruct sy; cbn [cond_Zopp]; split; try discriminate; try reflexivity; lia.
  - apply valid_finite in Vx. destruct Vx as [Cx _].
    destruct (canonical_bounds _ _ Cx) as (Ex & _ & _).
    pose proof (scaled_pos (Zpos mx) ex ltac:(lia) Ex).
    destruct sx; cbn [cond_Zopp]; split; try discriminate; try reflexivity; lia.
  - apply valid_finite in Vx, Vy. destruct Vx as [Cx _], Vy as [Cy _].
    destruct (canonical_bounds _ _ Cx) as (Ex & _ & _).
    destruct (canonical_bounds _ _ Cy) as (Ey & _ & _).
    pose proof (scaled_pos (Zpos mx) ex ltac:(lia) Ex).
    pose proof (scaled_pos (Zpos my) ey ltac:(lia) Ey).
    change (Pos.compare_cont Eq mx my) with (Pos.compare mx my).
    destruct sx, sy; cbn [cond_Zopp];
      try (split; [intros _; lia|reflexivity]);
      try (split; [discriminate|lia]);
      destruct (Z.compare_spec ex ey) as [->|Hlt|Hgt];
      try destruct (Pos.compare_spec mx my) as [->|Hm|Hm]; cbn [CompOpp];
      try pose proof (canonical_lt _ _ _ _ Cx Cy ltac:(assumption));
      try pose proof (canonical_lt _ _ _ _ Cy Cx ltac:(assumption));
      try pose proof (scaled_lt_mono (Zpos mx) (Zpos my) ey Ey ltac:(lia));
      try pose proof (scaled_lt_mono (Zpos my) (Zpos mx) ey Ey ltac:(lia));
      split; try discriminate; try reflexivity; try lia.
Qed.

(** *** Results of the operations *)

Lemma sval_representable (x : spec_float) : Num.representable x -> is_value (sval x).
Proof.
  destruct x as [s| | |s m e]; try (left; reflexivity).
  intros V. apply valid_finite in V. destruct V as [C _].
  right. exists (Zpos m), e. split; [assumption|].
  destruct (canonical_bounds _ _ C) as (E & _ & _).
  pose proof (scaled_pos (Zpos m) e ltac:(lia) E).
  cbn [sval]. destruct s; cbn [cond_Zopp]; lia.
Qed.

Lemma scaled_succ_exponent (m e : Z) :
  -1075 <= e -> scaled m (e + 1) = 2 * scaled m e.
Proof.
  intros He. rewrite <- (scaled_shift m e 1) by (unfold unit_exponent; lia).
  unfold scaled. change (2 ^ 1) with 2. ring.
Qed.

Lemma double_representable (V : Z) : is_value V -> is_value (2 * V).
Proof.
  intros [->|(m & e & C & HV)]; [left; reflexivity|right].
  destruct (canonical_bounds _ _ C) as (E & Hlt & N). destruct C as [Hm Hc].
  destruct (Z.le_gt_cases (2 ^ 52) m) as [Hn|Hs].
  - exists m, (e + 1). split.
    + apply canonical_intro; try lia.
    + rewrite scaled_succ_exponent by lia. lia.
  - destruct N as [->|N]; [|lia].
    exists (2 * m), (-1074). split.
    + apply canonical_intro; try lia.
    + unfold scaled in *. lia.
Qed.

Lemma rounded_finite (s : bool) (m e : Z) :
  0 <= m -> (m = 0 \/ canonical m e) -> Num.finite (rounded s m e) ->
  Num.representable (rounded s m e) /\
  sval (rounded s m e) = cond_Zopp s (scaled m e) /\
  (m = 0 \/ e <= Num.emax - Num.prec).
Proof.
  intros Hm Hc Hf. unfold rounded in *.
  destruct m as [|p|p]; try lia.
  - repeat split. { destruct s; reflexivity. } left; reflexivity.
  - destruct (Z.leb_spec e (Num.emax - Num.prec)) as [Hle|Hgt]; [|contradiction].
    destruct Hc as [Hc|Hc]; [discriminate|].
    split; [apply valid_finite; split; assumption|].
    split; [reflexivity|right; assumption].
Qed.

(** A rounding that is finite lies on the same side of every is_value
    value as the value it rounds. *)
Lemma nearest_mono (X : Z) (r : spec_float) :
  nearest X r -> Num.finite r ->
  Num.representable r /\
  forall V, is_value V ->
    (V <= X -> V <= sval r) /\ (X <= V -> sval r <= V).
Proof.
  intros (s & m & e & -> & Hm & He & Hc & Hs & Hz & Hlo & Hhi) Hf.
  destruct (rounded_finite s m e Hm Hc Hf) as (Hv & Hsv & _).
  split; [assumption|]. rewrite Hsv. clear Hsv Hv Hf.
  assert (Hpos : 0 <= scaled m e).
  { destruct Hc as [->|C]; [unfold scaled; lia|].
    apply Z.lt_le_incl, scaled_pos; [apply C|assumption]. }
  assert (Hsign : cond_Zopp s (scaled m e)
                  = if X <? 0 then - scaled m e else scaled m e).
  { destruct (Z.eq_dec m 0) as [->|Hne].
    - unfold scaled. destruct s, (X <? 0); reflexivity.
    - rewrite (Hs Hne). destruct (X <? 0); reflexivity. }
  rewrite Hsign. clear Hsign Hs.
  intros V [->|(mf & ef & Cf & HV)].
  - destruct (Z.ltb_spec X 0); split; intros; try lia.
    assert (X = 0) as HX0 by lia. specialize (Hz HX0). subst m.
    unfold scaled. lia.
  - pose proof (Hlo mf ef Cf) as Hlo'. pose proof (Hhi mf ef Cf) as Hhi'.
    destruct (canonical_bounds _ _ Cf) as (Ef & _ & _).
    pose proof (scaled_pos mf ef ltac:(apply Cf) Ef) as Hfpos.
    destruct (Z.ltb_spec X 0); split; intros; lia.
Qed.

(** A rounding of a value that a valid finite number bounds is finite. *)
Lemma nearest_finite (X : Z) (r x : spec_float) :
  nearest X r -> Num.representable x -> Num.finite x -> Z.abs X <= Z.abs (sval x) -> Num.finite r.
Proof.
  intros (s & m & e & -> & Hm & He & Hc & Hs & Hz & Hlo & Hhi) Vx Fx Hb.
  unfold rounded. destruct m as [|p|p]; [exact I| |lia].
  destruct Hc as [Hc|Hc]; [discriminate|].
  destruct (Z.leb_spec e (Num.emax - Num.prec)) as [Hle|Hgt]; [exact I|].
  exfalso. destruct x as [sx| | |sx mx ex]; try contradiction.
  - cbn [sval] in Hb. assert (X = 0) as HX by lia. specialize (Hz HX).
    discriminate.
  - apply valid_finite in Vx. destruct Vx as [Cx Ex].
    assert (Hx : Z.abs (sval (S754_finite sx mx ex)) = scaled (Zpos mx) ex).
    { destruct (canonical_bounds _ _ Cx) as (E & _ & _).
      pose proof (scaled_pos (Zpos mx) ex ltac:(lia) E).
      cbn [sval]. destruct sx; cbn [cond_Zopp]; lia. }
    rewrite Hx in Hb. specialize (Hhi _ _ Cx Hb).
    pose proof (canonical_lt _ _ _ _ Cx Hc ltac:(lia)). lia.
Qed.

Lemma nearest_self (x : spec_float) : Num.representable x -> Num.finite x -> nearest (sval x) x.
Proof.
  intros V F. destruct x as [s| | |s m e]; try contradiction.
  - exists s, 0, (-1074). cbn [sval rounded].
    repeat split; try lia; try (left; reflexivity).
    + intros mf ef Cf H. destruct (canonical_bounds _ _ Cf) as (Ef & _ & _).
      pose proof (scaled_pos mf ef ltac:(apply Cf) Ef). lia.
    + intros mf ef Cf H. destruct (canonical_bounds _ _ Cf) as (Ef & _ & _).
      pose proof (scaled_pos mf ef ltac:(apply Cf) Ef). unfold scaled at 1. lia.
  - apply valid_finite in V. destruct V as [C E].
    destruct (canonical_bounds _ _ C) as (Emin & _ & _).
    pose proof (scaled_pos (Zpos m) e ltac:(lia) Emin) as P.
    exists s, (Zpos m), e. cbn [sval rounded].
    destruct (Z.leb_spec e (Num.emax - Num.prec)); [|lia].
    assert (A : Z.abs (cond_Zopp s (scaled (Zpos m) e)) = scaled (Zpos m) e)
      by (destruct s; cbn [cond_Zopp]; lia).
    rewrite A.
    repeat split; try lia; try (right; assumption); try tauto.
    intros _. destruct s; cbn [cond_Zopp]; symmetry;
      [apply Z.ltb_lt|apply Z.ltb_ge]; lia.
Qed.

Lemma iter_xO (m d : positive) :
  Zpos (Pos.iter xO m d) = Zpos m * 2 ^ Zpos d.
Proof.
  induction d as [|d IH] using Pos.peano_ind.
  - cbn [Pos.iter]. rewrite Pos2Z.inj_xO. change (2 ^ 1) with 2. lia.
  - rewrite Pos.iter_succ, Pos2Z.inj_xO, IH, Pos2Z.inj_succ, Z.pow_succ_r by lia.
    ring.
Qed.

Lemma shl_align_spec (m : positive) (e t : Z) :
  snd (shl_align m e t) = Z.min e t /\
  Zpos (fst (shl_align m e t)) = Zpos m * 2 ^ (e - Z.min e t).
Proof.
  unfold shl_align. destruct (t - e) as [|d|d] eqn:E; cbn [fst snd].
  - replace (Z.min e t) with e by lia. rewrite Z.sub_diag. lia.
  - replace (Z.min e t) with e by lia. rewrite Z.sub_diag. lia.
  - replace (Z.min e t) with t by lia. split; [reflexivity|].
    rewrite iter_xO. f_equal. f_equal. lia.
Qed.

Lemma Zdigits2_shift (m n : Z) :
  0 < m -> 0 <= n -> Zdigits2 (m * 2 ^ n) = Zdigits2 m + n.
Proof.
  intros Hm Hn. pose proof (pow2_pos n Hn) as P.
  pose proof (Zdigits2_bounds m Hm) as [Dlo Dhi].
  pose proof (Zdigits2_pos m Hm) as Dpos.
  apply Zdigits2_unique; [nia|].
  replace (Zdigits2 m + n - 1) with (Zdigits2 m - 1 + n) by lia.
  rewrite !Z.pow_add_r by lia. nia.
Qed.

Lemma scaled_cond_Zopp (s : bool) (m e : Z) :
  scaled (cond_Zopp s m) e = cond_Zopp s (scaled m e).
Proof. unfold scaled. destruct s; cbn [cond_Zopp]; ring. Qed.

Lemma binary_round_nearest (s : bool) (p : positive) (ez : Z) :
  -1074 <= ez ->
  nearest (cond_Zopp s (scaled (Zpos p) ez)) (binary_round Num.prec Num.emax s p ez).
Proof.
  intros He. unfold binary_round.
  fold (Zdigits2 (Zpos p)). fold (fexp (Zdigits2 (Zpos p) + ez)).
  set (t := fexp (Zdigits2 (Zpos p) + ez)).
  assert (Ht : -1074 <= t) by (unfold t; rewrite fexp_max; lia).
  destruct (shl_align_spec p ez t) as [Hs Hm].
  destruct (shl_align p ez t) as [mz ez']. cbn [fst snd] in *. subst ez'.
  set (ez' := Z.min ez t) in *.
  assert (Hsc : scaled (Zpos mz) ez' = scaled (Zpos p) ez).
  { rewrite Hm, scaled_shift by (unfold unit_exponent; lia). f_equal. lia. }
  assert (Hpos : 0 < scaled (Zpos p) ez) by (apply scaled_pos; lia).
  destruct (binary_round_aux_spec s (Zpos mz) ez' loc_Exact (scaled (Zpos p) ez))
    as (m & e & Hr & Hm0 & Hemin & Hc & Hlo & Hhi).
  - lia.
  - lia.
  - left; lia.
  - rewrite Hm, Zdigits2_shift by lia.
    replace (Zdigits2 (Zpos p) + (ez - ez') + ez') with (Zdigits2 (Zpos p) + ez)
      by lia.
    fold t. lia.
  - rewrite <- Hsc. split; [lia|]. apply scaled_lt_mono; lia.
  - rewrite Hsc. tauto.
  - exists s, m, e.
    assert (A : Z.abs (cond_Zopp s (scaled (Zpos p) ez)) = scaled (Zpos p) ez)
      by (destruct s; cbn [cond_Zopp]; lia).
    rewrite A. repeat split; try assumption.
    + intros _. destruct s; cbn [cond_Zopp]; symmetry;
        [apply Z.ltb_lt|apply Z.ltb_ge]; lia.
    + intros H0. destruct s; cbn [cond_Zopp] in H0; lia.
Qed.

Lemma binary_normalize_nearest (n ez : Z) :
  -1074 <= ez -> nearest (scaled n ez) (binary_normalize Num.prec Num.emax n ez false).
Proof.
  intros He. destruct n as [|p|p]; cbn [binary_normalize].
  - replace (scaled 0 ez) with 0 by (unfold scaled; lia).
    apply (nearest_self (S754_zero false)); [reflexivity|exact I].
  - apply (binary_round_nearest false p ez He).
  - pose proof (binary_round_nearest true p ez He) as H.
    cbn [cond_Zopp] in H.
    replace (scaled (Zneg p) ez) with (- scaled (Zpos p) ez)
      by (unfold scaled; rewrite <- Pos2Z.opp_pos; ring).
    exact H.
Qed.

(** The sum of Num.two valid finite numbers is a rounding of the sum of their
    values. *)
Lemma add_nearest (x y : spec_float) :
  Num.representable x -> Num.representable y -> Num.finite x -> Num.finite y ->
  nearest (sval x + sval y) (SFadd Num.prec Num.emax x y).
Proof.
  intros Vx Vy Fx Fy.
  destruct x as [sx| | |sx mx ex], y as [sy| | |sy my ey]; try contradiction.
  - cbn [sval Z.add].
    assert (H : exists s, SFadd Num.prec Num.emax (S754_zero sx) (S754_zero sy)
                          = S754_zero s)
      by (destruct sx, sy; eexists; reflexivity).
    destruct H as [s ->]. apply (nearest_self (S754_zero s)); [reflexivity|exact I].
  - cbn [sval Z.add]. apply (nearest_self (S754_finite sy my ey)); assumption.
  - cbn [sval SFadd]. rewrite Z.add_0_r.
    apply (nearest_self (S754_finite sx mx ex)); assumption.
  - cbn [sval SFadd].
    apply valid_finite in Vx, Vy. destruct Vx as [Cx _], Vy as [Cy _].
    destruct (canonical_bounds _ _ Cx) as (Ex & _ & _).
    destruct (canonical_bounds _ _ Cy) as (Ey & _ & _).
    set (ez := Z.min ex ey).
    destruct (shl_align_spec mx ex ez) as [_ Hx].
    destruct (shl_align_spec my ey ez) as [_ Hy].
    replace (Z.min ex ez) with ez in Hx by lia.
    replace (Z.min ey ez) with ez in Hy by lia.
    rewrite Hx, Hy.
    assert (Sx : scaled (Zpos mx) ex = scaled (Zpos mx * 2 ^ (ex - ez)) ez).
    { rewrite scaled_shift by (unfold unit_exponent; lia). f_equal. lia. }
    assert (Sy : scaled (Zpos my) ey = scaled (Zpos my * 2 ^ (ey - ez)) ez).
    { rewrite scaled_shift by (unfold unit_exponent; lia). f_equal. lia. }
    rewrite Sx, Sy, <- !scaled_cond_Zopp.
    replace (scaled (cond_Zopp sx (Zpos mx * 2 ^ (ex - ez))) ez
             + scaled (cond_Zopp sy (Zpos my * 2 ^ (ey - ez))) ez)
      with (scaled (cond_Zopp sx (Zpos mx * 2 ^ (ex - ez))
                    + cond_Zopp sy (Zpos my * 2 ^ (ey - ez))) ez)
      by (unfold scaled; ring).
    apply binary_normalize_nearest. lia.
Qed.

Lemma div_eucl_div_mod (a b : Z) : Z.div_eucl a b = (a / b, a mod b).
Proof. unfold Z.div, Z.modulo. destruct (Z.div_eucl a b). reflexivity. Qed.

Lemma div_core_two (m1 e1 : Z) :
  0 < m1 ->
  SFdiv_core_binary Num.prec Num.emax m1 e1 (2 ^ 52) (-51) =
  let e' := Z.min (fexp (Zdigits2 m1 + e1 - 2)) (e1 + 51) in
  let m' := m1 * 2 ^ (e1 + 51 - e') in
  (m' / 2 ^ 52, e',
   if m' mod 2 ^ 52 =? 0 then loc_Exact
   else loc_Inexact (Z.compare (2 * (m' mod 2 ^ 52)) (2 ^ 52))).
Proof.
  intros Hm. unfold SFdiv_core_binary.
  change (Zdigits2 (2 ^ 52)) with 53.
  replace (Zdigits2 m1 + e1 - (53 + -51)) with (Zdigits2 m1 + e1 - 2) by lia.
  replace (e1 - -51) with (e1 + 51) by lia.
  fold (fexp (Zdigits2 m1 + e1 - 2)). cbv zeta.
  set (e' := Z.min (fexp (Zdigits2 m1 + e1 - 2)) (e1 + 51)).
  assert (Hs : 0 <= e1 + 51 - e') by lia.
  assert (Hm' : match e1 + 51 - e' with
                | 0 => m1
                | Zpos _ => Z.shiftl m1 (e1 + 51 - e')
                | Zneg _ => 0
                end = m1 * 2 ^ (e1 + 51 - e')).
  { destruct (e1 + 51 - e') as [|p|p] eqn:E; try lia.
    rewrite Z.shiftl_mul_pow2 by lia. reflexivity. }
  rewrite Hm', div_eucl_div_mod. reflexivity.
Qed.

(** The half of a valid finite number is a rounding of the half of its
    value. *)
Lemma div_two_nearest (x : spec_float) :
  Num.representable x -> Num.finite x -> nearest (sval x / 2) (SFdiv Num.prec Num.emax x Num.two).
Proof.
  intros V F. destruct x as [sx| | |sx mx ex]; try contradiction.
  - cbn [sval SFdiv Num.two]. change (0 / 2) with 0.
    apply (nearest_self (S754_zero (xorb sx false))); [reflexivity|exact I].
  - apply valid_finite in V. destruct V as [C _].
    destruct (canonical_bounds _ _ C) as (Ex & Hlt & _).
    assert (Hd : Zdigits2 (Zpos mx) <= 53).
    { destruct C as [_ C]. rewrite fexp_max in C. lia. }
    pose proof (Zdigits2_pos (Zpos mx) ltac:(lia)) as Dpos.
    set (X := scaled (Zpos mx) (ex - 1)).
    assert (HX : sval (S754_finite sx mx ex) / 2 = cond_Zopp sx X).
    { cbn [sval]. replace ex with (ex - 1 + 1) at 1 by lia.
      rewrite scaled_succ_exponent by lia. fold X.
      replace (cond_Zopp sx (2 * X)) with (cond_Zopp sx X * 2)
        by (destruct sx; cbn [cond_Zopp]; ring).
      apply Z.div_mul. lia. }
    assert (Xpos : 0 < X).
    { unfold X, scaled.
      pose proof (pow2_pos (ex - 1 + unit_exponent)
                    ltac:(unfold unit_exponent; lia)). nia. }
    rewrite HX. unfold SFdiv, Num.two.
    change (Zpos 4503599627370496) with (2 ^ 52).
    rewrite div_core_two by lia. cbv zeta.
    set (e' := Z.min (fexp (Zdigits2 (Zpos mx) + ex - 2)) (ex + 51)).
    set (m' := Zpos mx * 2 ^ (ex + 51 - e')).
    assert (He' : -1074 <= e') by (unfold e'; rewrite fexp_max; lia).
    assert (Hs : 0 <= ex + 51 - e') by (unfold e'; lia).
    pose proof (pow2_pos _ Hs) as Ps.
    assert (Hm' : 0 < m') by (unfold m'; nia).
    pose proof (Z.div_mod m' (2 ^ 52) ltac:(lia)) as DM.
    pose proof (Z.mod_pos_bound m' (2 ^ 52) ltac:(lia)) as MB.
    set (q := m' / 2 ^ 52) in *. set (r := m' mod 2 ^ 52) in *.
    assert (Key : scaled m' e' = X * 2 ^ 52).
    { unfold m', X. rewrite scaled_shift by (unfold unit_exponent; lia).
      replace (e' + (ex + 51 - e')) with (ex - 1 + 52) by lia.
      rewrite <- (scaled_shift (Zpos mx) (ex - 1) 52)
        by (unfold unit_exponent; lia).
      unfold scaled. ring. }
    assert (U' : 0 < 2 ^ (e' + unit_exponent))
      by (apply pow2_pos; unfold unit_exponent; lia).
    unfold scaled in Key.
    destruct (binary_round_aux_spec (xorb sx false) q e'
                (if r =? 0 then loc_Exact
                 else loc_Inexact (Z.compare (2 * r) (2 ^ 52))) X)
      as (m & e & Hr & Hm0 & Hemin & Hc & Hlo & Hhi).
    + apply Z.div_pos; lia.
    + assumption.
    + destruct (Z.eq_dec e' (-1074)) as [|Hne]; [right; assumption|left].
      assert (52 <= ex + 51 - e') by (unfold e' in *; rewrite fexp_max in *; lia).
      unfold q, m'.
      replace (ex + 51 - e') with (ex + 51 - e' - 52 + 52) by lia.
      rewrite Z.pow_add_r, Z.mul_assoc, Z.div_mul by lia.
      pose proof (pow2_pos (ex + 51 - e' - 52) ltac:(lia)). nia.
    + destruct (Z.eq_dec e' (-1074)) as [->|Hne]; [rewrite fexp_max; lia|].
      assert (Hs52 : 53 <= ex + 51 - e')
        by (unfold e' in *; rewrite fexp_max in *; lia).
      assert (Hq : q = Zpos mx * 2 ^ (ex + 51 - e' - 52)).
      { unfold q, m'.
        replace (ex + 51 - e') with (ex + 51 - e' - 52 + 52) at 1 by lia.
        rewrite Z.pow_add_r, Z.mul_assoc, Z.div_mul by lia. reflexivity. }
      rewrite Hq, Zdigits2_shift, fexp_max by lia.
      unfold e' in *. rewrite fexp_max in *. lia.
    + unfold scaled. split.
      * apply Z.mul_le_mono_pos_r with (p := 2 ^ 52); [lia|]. nia.
      * apply Z.mul_lt_mono_pos_r with (p := 2 ^ 52); [lia|]. nia.
    + unfold scaled. destruct (Z.eqb_spec r 0) as [Hr0|Hr0].
      * split; [intros _|reflexivity].
        apply Z.mul_cancel_r with (p := 2 ^ 52); [lia|]. nia.
      * split; [discriminate|]. intros HXq. exfalso. apply Hr0. nia.
    + rewrite Hr. exists (xorb sx false), m, e.
      assert (A : Z.abs (cond_Zopp sx X) = X)
        by (destruct sx; cbn [cond_Zopp]; lia).
      rewrite A. repeat split; try assumption.
      * intros _. rewrite xorb_false_r.
        destruct sx; cbn [cond_Zopp]; symmetry;
          [apply Z.ltb_lt|apply Z.ltb_ge]; lia.
      * intros H0. destruct sx; cbn [cond_Zopp] in H0; lia.
Qed.

(** *** The midpoint *)

(** The midpoint of Num.two valid finite numbers in order, computed as the half
    of their sum, lies between them as soon as the sum is finite. *)
Lemma midpoint_between (a b : spec_float) :
  Num.representable a -> Num.representable b -> Num.finite a -> Num.finite b ->
  SFleb a b = true ->
  Num.finite (SFadd Num.prec Num.emax a b) ->
  let mid := SFdiv Num.prec Num.emax (SFadd Num.prec Num.emax a b) Num.two in
  Num.representable mid /\ Num.finite mid /\ SFleb a mid = true /\ SFleb mid b = true.
Proof.
  intros Va Vb Fa Fb Hab FS. cbv zeta.
  apply (leb_sval a b Fa Fb Va Vb) in Hab.
  pose proof (add_nearest a b Va Vb Fa Fb) as NS.
  destruct (nearest_mono _ _ NS FS) as [VS HS].
  destruct (HS (2 * sval a) (double_representable _ (sval_representable a Va)))
    as [Slo _].
  destruct (HS (2 * sval b) (double_representable _ (sval_representable b Vb)))
    as [_ Shi].
  specialize (Slo ltac:(lia)). specialize (Shi ltac:(lia)).
  set (S := SFadd Num.prec Num.emax a b) in *.
  pose proof (div_two_nearest S VS FS) as NM.
  assert (Xlo : sval a <= sval S / 2) by (apply Z.div_le_lower_bound; lia).
  assert (Xhi : sval S / 2 <= sval b) by (apply Z.div_le_upper_bound; lia).
  assert (FM : Num.finite (SFdiv Num.prec Num.emax S Num.two)).
  { destruct (Z.le_gt_cases 0 (sval S / 2)).
    - apply (nearest_finite _ _ b NM Vb Fb). lia.
    - apply (nearest_finite _ _ a NM Va Fa). lia. }
  destruct (nearest_mono _ _ NM FM) as [VM HM].
  destruct (HM (sval a) (sval_representable a Va)) as [Mlo _].
  destruct (HM (sval b) (sval_representable b Vb)) as [_ Mhi].
  split; [assumption|]. split; [assumption|]. split.
  - apply leb_sval; auto.
  - apply leb_sval; auto.
Qed.

End FloatFacts.

(** ** The look-up loop *)

Lemma attempt_error_fails (state : string) (a : Settled) :
  attempt_fails a = true <-> is_Some (attempt_error state a).
Proof.
  unfold attempt_fails, attempt_error, query_errors, returns_zero_rows.
  destruct a as [[d [e|]]|reason]; simpl;
    try destruct (null_or_empty d); simpl; split; intros H;
    try discriminate; try reflexivity; try (eexists; reflexivity);
    destruct H as [x H]; discriminate.
Qed.

Lemma attempt_error_none (state : string) (a : Settled) :
  attempt_error state a = None <->
  exists rows, rows <> [] /\ a = Fulfilled {| data := Some rows; error := None |}.
Proof.
  unfold attempt_error. destruct a as [[d [e|]]|reason]; simpl;
    try destruct d as [[|row rows]|]; simpl;
    (split; [intros H|intros (rows' & Hne & H)]);
    try discriminate; try reflexivity;
    try (inversion H; subst; congruence).
  eexists; split; [|reflexivity]. discriminate.
Qed.

Ltac unfold_M :=
  unfold mbind, mret, M_bind, M_ret, throw, pending, try_catch, get_attempt,
    get_boundingBoxes, set_attempt, set_boundingBoxes, console_log,
    console_log_value, console_warn, console_error, console_call,
    await_query, nearbySearch in *.

#[local] Arguments Nat.leb : simpl never.
#[local] Arguments Nat.ltb : simpl never.

Section LookupFacts.
Variable store : Store.
Variable state : string.

Lemma pass_spec (s : Frame) :
  let a := answer store state (length (queries s)) in
  let r := try_catch (try_block store state) catch_block s in
  attempt (snd r) = attempt s /\
  queries (snd r) = queries s ++ [boundingBoxesQuery state] /\
  searches (snd r) = searches s /\
  match attempt_error state a with
  | None =>
      fst r = Normal Break /\
      exists rows, boundingBoxes (snd r) = Some rows /\ rows <> [] /\
        a = Fulfilled {| data := Some rows; error := None |}
  | Some err =>
      if (maxRetries <=? attempt s)%nat
      then fst r = Throw err /\
           exists before, console (snd r) = before ++ [failed_line err]
      else fst r = Normal Fallthrough
  end.
Proof.
  unfold answer, try_block, catch_block, attempt_error. unfold_M. cbn.
  destruct (store (length (queries s)) (boundingBoxesQuery state))
    as [[d [e|]]|reason]; cbn.
  - destruct (maxRetries <=? attempt s)%nat; cbn; repeat split; eauto.
  - destruct d as [[|row rows]|]; cbn;
      try (destruct (maxRetries <=? attempt s)%nat; cbn; repeat split; eauto).
  - destruct (maxRetries <=? attempt s)%nat; cbn; repeat split; eauto.
Qed.

Lemma retry_loop_unfold (fuel : nat) (s : Frame) :
  retry_loop store state (S fuel) s =
  if (attempt s <? maxRetries)%nat then
    match try_catch (try_block store state) catch_block (bump s) with
    | (Normal Break, s') => (Normal tt, s')
    | (Normal Fallthrough, s') => retry_loop store state fuel s'
    | (Throw err, s') => (Throw err, s')
    | (Pending, s') => (Pending, s')
    end
  else (Normal tt, s).
Proof.
  cbn [retry_loop]. unfold mbind, M_bind, get_attempt, set_attempt, bump.
  destruct (attempt s <? maxRetries)%nat; [|reflexivity].
  destruct (try_catch _ _ _) as [[[]| |] s']; reflexivity.
Qed.

Lemma retry_loop_spec (fuel : nat) : forall s : Frame,
  attempt s < maxRetries -> maxRetries - attempt s <= fuel ->
  let n0 := length (queries s) in
  let budget := maxRetries - attempt s in
  let r := retry_loop store state fuel s in
  searches (snd r) = searches s /\
  ((exists k rows,
      k < budget /\
      (forall i, i < k -> attempt_fails (answer store state (n0 + i)) = true) /\
      answer store state (n0 + k)
        = Fulfilled {| data := Some rows; error := None |} /\
      rows <> [] /\
      fst r = Normal tt /\
      boundingBoxes (snd r) = Some rows /\
      attempt (snd r) = attempt s + k + 1 /\
      queries (snd r)
        = queries s ++ replicate (k + 1) (boundingBoxesQuery state))
   \/
   ((forall i, i < budget ->
       attempt_fails (answer store state (n0 + i)) = true) /\
    exists err,
      attempt_error state (answer store state (n0 + budget - 1)) = Some err /\
      fst r = Throw err /\
      attempt (snd r) = maxRetries /\
      queries (snd r)
        = queries s ++ replicate budget (boundingBoxesQuery state) /\
      exists before, console (snd r) = before ++ [failed_line err])).
Proof.
  induction fuel as [|fuel IH]; intros s Ha Hf; [lia|].
  cbv zeta. rewrite retry_loop_unfold.
  destruct (Nat.ltb_spec (attempt s) maxRetries) as [_|]; [|lia].
  pose proof (pass_spec (bump s)) as P. cbv zeta in P.
  destruct (try_catch _ _ (bump s)) as [c s1]. cbn [fst snd] in P.
  destruct P as (Pa & Pq & Ps & P). cbn [bump attempt queries searches] in *.
  destruct (attempt_error state (answer store state (length (queries s))))
    as [err|] eqn:E.
  - (* the attempt fails *)
    assert (F0 : attempt_fails (answer store state (length (queries s) + 0)) = true).
    { rewrite Nat.add_0_r. apply (attempt_error_fails state). rewrite E. eexists; reflexivity. }
    destruct (Nat.leb_spec maxRetries (S (attempt s))) as [Hex|Hmore].
    + (* the last one *)
      destruct P as (-> & before & Hc). cbn [fst snd].
      split; [assumption|]. right.
      assert (maxRetries - attempt s = 1) as -> by lia.
      split.
      { intros i Hi. assert (i = 0) as -> by lia. exact F0. }
      exists err. replace (length (queries s) + 1 - 1) with (length (queries s)) by lia.
      repeat split; eauto. lia.
    + subst c.
      specialize (IH s1). rewrite Pa, Pq, Ps in IH.
      rewrite length_app in IH. cbn [length] in IH.
      destruct IH as (IHs & IH); [lia|lia|].
      split; [assumption|].
      destruct IH as [(k & rows & Hk & Hfail & Hans & Hne & Hr & Hb & Hat & Hq)
                     |(Hfail & err' & He & Hr & Hat & Hq & Hc)].
      * left. exists (S k), rows. repeat split; try assumption; try lia.
        -- intros i Hi. destruct i as [|i]; [exact F0|].
           replace (length (queries s) + S i) with (length (queries s) + 1 + i) by lia.
           apply Hfail. lia.
        -- replace (length (queries s) + S k) with (length (queries s) + 1 + k) by lia.
           exact Hans.
        -- rewrite Hq, <- app_assoc. reflexivity.
      * right. split.
        -- intros i Hi. destruct i as [|i]; [exact F0|].
           replace (length (queries s) + S i) with (length (queries s) + 1 + i) by lia.
           apply Hfail. lia.
        -- exists err'. repeat split; try assumption.
           ++ replace (length (queries s) + (maxRetries - attempt s) - 1)
                with (length (queries s) + 1 + (maxRetries - S (attempt s)) - 1) by lia.
              exact He.
           ++ rewrite Hq, <- app_assoc.
              replace (maxRetries - attempt s) with (S (maxRetries - S (attempt s))) by lia.
              reflexivity.
  - (* the attempt succeeds *)
    destruct P as (-> & rows & Hb & Hne & Hans). cbn [fst snd].
    split; [assumption|]. left. exists 0, rows.
    rewrite Nat.add_0_r. repeat split; try assumption; try lia.
Qed.

Lemma retry_unfold (s : Frame) :
  retry store state s =
  retry_loop store state maxRetries
    {| attempt := 0; boundingBoxes := None; console := console s;
       queries := queries s; searches := searches s |}.
Proof. reflexivity. Qed.

Lemma lookup_unfold (s : Frame) :
  lookup store state s =
  match retry store state s with
  | (Normal _, s') =>
      match boundingBoxes s' with
      | None => (Throw (ThrownError "Bounding boxes data is null"), s')
      | Some rows => (Normal rows, s')
      end
  | (Throw err, s') => (Throw err, s')
  | (Pending, s') => (Pending, s')
  end.
Proof.
  unfold lookup. unfold mbind at 1. unfold M_bind at 1.
  destruct (retry store state s) as [[[]| |] s']; try reflexivity.
  unfold_M. destruct (boundingBoxes s'); reflexivity.
Qed.

(** The look-up ends in one of the two ways, whatever the store does. *)
Lemma lookup_spec (s : Frame) :
  lookup_ends store state s (lookup store state s).
Proof.
  rewrite lookup_unfold, retry_unfold.
  match goal with |- context [retry_loop _ _ _ ?s0] => set (s0' := s0) end.
  pose proof (retry_loop_spec maxRetries s0') as H.
  cbv zeta in H. cbn [s0' attempt queries searches] in H.
  destruct H as (Hs & H); [unfold maxRetries; lia|lia|].
  destruct (retry_loop store state maxRetries s0') as [c s']. cbn [fst snd] in *.
  destruct H as [(k & rows & Hk & Hfail & Hans & Hne & -> & Hb & Hat & Hq)
                |(Hfail & err & He & -> & Hat & Hq & before & Hc)].
  - rewrite Hb. eapply ends_found; eauto.
  - eapply ends_exhausted; eauto.
    rewrite <- He. f_equal. f_equal. unfold maxRetries. lia.
Qed.

(** An attempt that succeeds does not fail. *)
Lemma found_not_fails (rows : list Row.t) :
  rows <> [] ->
  attempt_fails (Fulfilled {| data := Some rows; error := None |}) = false.
Proof. destruct rows; [congruence|reflexivity]. Qed.

Lemma not_fails_found (a : Settled) :
  attempt_fails a = false ->
  exists rows, rows <> [] /\ a = Fulfilled {| data := Some rows; error := None |}.
Proof.
  intros H. apply (attempt_error_none state).
  destruct (attempt_error state a) as [err|] eqn:E; [|reflexivity].
  assert (attempt_fails a = true) as H'
    by (apply (attempt_error_fails state); rewrite E; eexists; reflexivity).
  congruence.
Qed.
End LookupFacts.

(** ** The searches *)

Section SearchFacts.
Variable provider : Provider.

Lemma on_results_spec (args : CallbackArgs) (s : Frame) :
  exists s', on_results args s = (Normal (contribution args), s') /\
             same_but_console s s'.
Proof.
  destruct args as [[results|] status]; unfold on_results, contribution;
    destruct (String.eqb status OK); unfold_M; cbn;
    eexists; (split; [reflexivity|]); repeat split.
Qed.

Lemma resolve_sound requests slots i request :
  sound provider requests slots -> requests !! i = Some request ->
  sound provider requests (resolve i (contribution (respond provider i request)) slots)
  /\ filled (resolve i (contribution (respond provider i request)) slots) i
  /\ forall j, filled slots j ->
       filled (resolve i (contribution (respond provider i request)) slots) j.
Proof.
  intros [Hlen Hs] Hreq. unfold resolve.
  assert (Hi : i < length slots).
  { rewrite Hlen. eapply lookup_lt_Some; eassumption. }
  destruct (slots !! i) as [[v|]|] eqn:E.
  - split; [split; assumption|]. split; [exists v; assumption|auto].
  - split; [split|split].
    + rewrite length_insert. assumption.
    + intros j w Hj. destruct (decide (i = j)) as [<-|Hne].
      * rewrite list_lookup_insert_eq in Hj by assumption.
        injection Hj as <-. unfold values. rewrite list_lookup_imap, Hreq.
        reflexivity.
      * rewrite list_lookup_insert_ne in Hj by assumption. eauto.
    + eexists. apply list_lookup_insert_eq. assumption.
    + intros j [w Hj]. exists w. destruct (decide (i = j)) as [<-|Hne].
      * congruence.
      * rewrite list_lookup_insert_ne by assumption. assumption.
  - apply lookup_ge_None in E. lia.
Qed.

Lemma deliver_spec (requests : list PlaceSearchRequest) (order : list nat) :
  forall (slots : Slots) (s : Frame),
    sound provider requests slots ->
    exists slots' s',
      deliver provider requests order slots s = (Normal slots', s') /\
      same_but_console s s' /\
      sound provider requests slots' /\
      (forall j, filled slots j -> filled slots' j) /\
      (forall j, In j order -> j < length requests -> filled slots' j).
Proof.
  induction order as [|i later IH]; intros slots s Hs; cbn [deliver].
  - exists slots, s. repeat split; try apply Hs; auto.
    intros j [].
  - destruct (requests !! i) as [request|] eqn:E.
    + destruct (on_results_spec (respond provider i request) s)
        as (s1 & Hrun & Hsame).
      unfold mbind, M_bind. rewrite Hrun.
      destruct (resolve_sound requests slots i request Hs E)
        as (Hs1 & Hfi & Hkeep).
      destruct (IH _ s1 Hs1) as (slots' & s' & Hd & Hsame' & Hs' & Hk' & Ho').
      exists slots', s'. repeat split; try apply Hs'; try assumption.
      * destruct Hsame as (?&?&?&?), Hsame' as (?&?&?&?); congruence.
      * destruct Hsame as (?&?&?&?), Hsame' as (?&?&?&?); congruence.
      * destruct Hsame as (?&?&?&?), Hsame' as (?&?&?&?); congruence.
      * destruct Hsame as (?&?&?&?), Hsame' as (?&?&?&?); congruence.
      * auto.
      * intros j [<-|Hin] Hj; auto.
    + destruct (IH slots s Hs) as (slots' & s' & Hd & Hsame' & Hs' & Hk' & Ho').
      exists slots', s'. repeat split; try apply Hs'; try apply Hsame'; try assumption.
      intros j [<-|Hin] Hj; auto.
      apply lookup_ge_None in E. lia.
Qed.

Lemma settled_Some (vs : list (list string)) : settled (map Some vs) = Some vs.
Proof.
  induction vs as [|v vs IH]; cbn; [reflexivity|]. rewrite IH. reflexivity.
Qed.

Lemma sound_full requests slots :
  sound provider requests slots -> (forall j, j < length requests -> filled slots j) ->
  slots = map Some (values provider requests).
Proof.
  intros [Hlen Hs] Hfull. apply list_eq. intros i.
  rewrite list_lookup_fmap.
  destruct (Nat.lt_ge_cases i (length requests)) as [Hi|Hi].
  - destruct (Hfull i Hi) as [v Hv]. rewrite Hv, (Hs _ _ Hv). reflexivity.
  - rewrite (proj2 (lookup_ge_None slots i)) by lia.
    unfold values. rewrite list_lookup_imap.
    rewrite (proj2 (lookup_ge_None requests i)) by lia. reflexivity.
Qed.

Lemma issue_all (requests : list PlaceSearchRequest) : forall s : Frame,
  exists units,
    mapM nearbySearch requests s =
      (Normal units,
       {| attempt := attempt s; boundingBoxes := boundingBoxes s;
          console := console s; queries := queries s;
          searches := searches s ++ requests |}).
Proof.
  induction requests as [|request requests IH]; intros s; cbn [mapM].
  - exists []. unfold_M. rewrite app_nil_r. destruct s; reflexivity.
  - unfold mbind at 1. unfold M_bind at 1. unfold nearbySearch at 1.
    unfold mbind at 1. unfold M_bind at 1.
    destruct (IH {| attempt := attempt s; boundingBoxes := boundingBoxes s;
                    console := console s; queries := queries s;
                    searches := searches s ++ [request] |}) as [units Hu].
    rewrite Hu. cbn. rewrite <- app_assoc. eexists; reflexivity.
Qed.

Lemma settled_lookup (slots : Slots) : forall (vs : list (list string)),
  settled slots = Some vs -> forall i, slots !! i = Some <$> (vs !! i).
Proof.
  induction slots as [|[v|] slots IH]; cbn; intros vs E i.
  - injection E as <-. reflexivity.
  - destruct (settled slots) as [vs'|]; [|discriminate].
    injection E as <-. destruct i; cbn; [reflexivity|]. apply IH. reflexivity.
  - discriminate.
Qed.

Lemma searchResults_run (divided : list Quadrant.t) (s : Frame) :
  exists (slots' : Slots) (s' : Frame),
    searchResults provider divided s =
      match settled slots' with
      | Some vs => (Normal vs, s')
      | None => (Pending, s')
      end /\
    attempt s' = attempt s /\ boundingBoxes s' = boundingBoxes s /\
    queries s' = queries s /\
    searches s' = searches s ++ map search_request divided /\
    sound provider (map search_request divided) slots' /\
    (calls_back provider ->
     forall j, j < length (map search_request divided) -> filled slots' j).
Proof.
  unfold searchResults.
  set (requests := map search_request divided).
  destruct (issue_all requests s) as [units Hu].
  unfold mbind at 1. unfold M_bind at 1. rewrite Hu.
  unfold mbind at 1. unfold M_bind at 1.
  match goal with |- context [deliver _ _ _ _ ?s1] => set (s1' := s1) end.
  assert (Hs0 : sound provider requests (replicate (length requests) None)).
  { split; [apply length_replicate|]. intros i v Hv.
    apply lookup_replicate in Hv. destruct Hv as [Hv _]. discriminate. }
  destruct (deliver_spec requests (schedule provider (length requests)) _ s1' Hs0)
    as (slots' & s' & Hd & Hsame & Hs' & _ & Ho').
  rewrite Hd. exists slots', s'.
  destruct Hsame as (Ha & Hb & Hq & Hse). subst s1'. cbn in Ha, Hb, Hq, Hse.
  split; [destruct (settled slots'); reflexivity|].
  repeat (split; [assumption|]).
  intros Hcb j Hj. apply Ho'; auto.
Qed.

(** The searches all go out; the result is the array of the values, or
    never comes when some callback is never invoked. *)
Lemma searchResults_cases (divided : list Quadrant.t) (s : Frame) :
  exists s',
    attempt s' = attempt s /\ boundingBoxes s' = boundingBoxes s /\
    queries s' = queries s /\
    searches s' = searches s ++ map search_request divided /\
    (searchResults provider divided s = (Pending, s') \/
     searchResults provider divided s
       = (Normal (values provider (map search_request divided)), s')) /\
    (calls_back provider ->
     searchResults provider divided s
       = (Normal (values provider (map search_request divided)), s')).
Proof.
  destruct (searchResults_run divided s)
    as (slots' & s' & Hrun & Ha & Hb & Hq & Hse & Hs' & Hfull).
  exists s'. repeat (split; [assumption|]). rewrite Hrun. split.
  - destruct (settled slots') as [vs|] eqn:E; [|left; reflexivity].
    right. destruct Hs' as [Hlen Hs'].
    assert (vs = values provider (map search_request divided)) as ->;
      [|reflexivity].
    apply list_eq. intros i.
    pose proof (settled_lookup _ _ E i) as Hv.
    destruct (vs !! i) as [v|] eqn:Ev; cbn in Hv.
    + symmetry. apply Hs'. assumption.
    + apply lookup_ge_None in Hv. symmetry. apply lookup_ge_None.
      unfold values. rewrite length_imap. lia.
  - intros Hcb.
    rewrite (sound_full _ slots' Hs' (Hfull Hcb)), settled_Some. reflexivity.
Qed.
End SearchFacts.

(** ** The tool *)

Lemma run_unfold (store : Store) (provider : Provider) (input : BoundingBoxInput) :
  run store provider input =
  match lookup store (state input) initial with
  | (Normal rows, s1) =>
      match searchResults provider (dividedBoundingBoxes rows) s1 with
      | (Normal results, s2) => (Normal (concat results), s2)
      | (Throw err, s2) => (Throw err, s2)
      | (Pending, s2) => (Pending, s2)
      end
  | (Throw err, s1) => (Throw err, s1)
  | (Pending, s1) => (Pending, s1)
  end.
Proof.
  unfold run, boundingBoxesTool. unfold mbind at 1. unfold M_bind at 1.
  destruct (lookup store (state input) initial) as [[rows|err|] s1];
    reflexivity.
Qed.

(** The call throws exactly what the look-up throws. *)
Lemma run_throws (store : Store) (provider : Provider) (input : BoundingBoxInput)
    (err : Thrown) :
  fst (run store provider input) = Throw err <->
  fst (lookup store (state input) initial) = Throw err.
Proof.
  rewrite run_unfold.
  destruct (lookup store (state input) initial) as [[rows|err'|] s1];
    cbn [fst]; try (split; intros E; inversion E; reflexivity).
  destruct (searchResults_cases provider (dividedBoundingBoxes rows) s1)
    as (s' & _ & _ & _ & _ & [H|H] & _); rewrite H; cbn [fst];
    split; intros E; discriminate E.
Qed.

Lemma run_throws_state (store : Store) (provider : Provider) (name : string)
    (err : Thrown) :
  fst (run store provider {| state := name |}) = Throw err <->
  fst (lookup store name initial) = Throw err.
Proof. exact (run_throws store provider {| state := name |} err). Qed.

(** After a look-up that found rows, the call issues the searches of their
    quadrants and, once every callback has run, returns the flattened ids. *)
Lemma run_found (store : Store) (provider : Provider) (input : BoundingBoxInput)
    (rows : list Row.t) :
  fst (lookup store (state input) initial) = Normal rows ->
  searches (snd (lookup store (state input) initial)) = [] ->
  searches (snd (run store provider input))
    = map search_request (dividedBoundingBoxes rows) /\
  (calls_back provider ->
   fst (run store provider input)
     = Normal (concat (values provider
                         (map search_request (dividedBoundingBoxes rows))))).
Proof.
  rewrite run_unfold.
  destruct (lookup store (state input) initial) as [c s1]. cbn [fst snd].
  intros -> Hs1.
  destruct (searchResults_cases provider (dividedBoundingBoxes rows) s1)
    as (s' & _ & _ & _ & Hse & Hcase & Hcb).
  rewrite Hs1 in Hse. cbn in Hse. split.
  - destruct Hcase as [H|H]; rewrite H; cbn [snd]; assumption.
  - intros Hc. rewrite (Hcb Hc). reflexivity.
Qed.

Lemma lookup_searches (store : Store) (state : string) :
  searches (snd (lookup store state initial)) = [].
Proof.
  pose proof (lookup_spec store state initial) as H.
  remember (lookup store state initial) as r eqn:Er.
  destruct H; cbn [snd]; assumption.
Qed.

(** ** Quadrant subdivision *)

Lemma divide_present (sn label : option string) (y_min y_max x_min x_max : number) :
  divide (Row.mk sn label (Some y_min) (Some y_max) (Some x_min) (Some x_max)) =
  [ Quadrant.mk label y_min (midpoint y_min y_max) x_min (midpoint x_min x_max);
    Quadrant.mk label y_min (midpoint y_min y_max) (midpoint x_min x_max) x_max;
    Quadrant.mk label (midpoint y_min y_max) y_max x_min (midpoint x_min x_max);
    Quadrant.mk label (midpoint y_min y_max) y_max (midpoint x_min x_max) x_max ].
Proof. reflexivity. Qed.

Lemma extent_Some (box : Row.t) (parent : Quadrant.t) :
  extent box = Some parent ->
  box = Row.mk (Row.STATE_NAME box) (Quadrant.COUNTY_NAME parent)
          (Some (Quadrant.y_min parent)) (Some (Quadrant.y_max parent))
          (Some (Quadrant.x_min parent)) (Some (Quadrant.x_max parent)).
Proof.
  destruct box as [sn label [a|] [b|] [c|] [d|]]; cbn; intros H;
    try discriminate.
  injection H as <-. reflexivity.
Qed.

(** C5: a box with a null bound among [y_min], [y_max], [x_min], [x_max]
    yields no quadrant at all, and in the [flatMap] it is skipped: the
    quadrants of the boxes around it are unaffected. *)
Theorem C5_null_bound_no_quadrants (box : Row.t) :
  some_bound_null box ->
  divide box = [] /\
  forall before after : list Row.t,
    dividedBoundingBoxes (before ++ box :: after)
    = dividedBoundingBoxes (before ++ after).
Proof.
  intros Hnull.
  assert (Hd : divide box = []).
  { unfold divide. destruct Hnull as [H|[H|[H|H]]]; rewrite H;
      repeat match goal with |- context [match ?o with _ => _ end] => destruct o end;
      reflexivity. }
  split; [exact Hd|]. intros before after. unfold dividedBoundingBoxes.
  rewrite !flat_map_app. cbn [flat_map]. rewrite Hd. reflexivity.
Qed.

Lemma C5_witness :
  some_bound_null Scenario.partial_row /\
  divide Scenario.partial_row = [].
Proof.
  split.
  - right; left; reflexivity.
  - apply (C5_null_bound_no_quadrants Scenario.partial_row).
    right; left; reflexivity.
Defined.

(** C9: the subdivision looks at no order between the bounds: a box yields
    four quadrants exactly when its four bounds are present, whatever the
    numbers are (also [y_min > y_max] or [x_min > x_max]), and it yields none
    exactly when one bound is null. *)
Theorem C9_only_null_discards (box : Row.t) :
  (all_bounds_present box <-> length (divide box) = 4) /\
  (some_bound_null box <-> divide box = []) /\
  (forall (sn label : option string) (y_min y_max x_min x_max : number),
     length (divide (Row.mk sn label (Some y_min) (Some y_max)
                       (Some x_min) (Some x_max))) = 4).
Proof.
  split; [|split].
  - unfold all_bounds_present, divide.
    destruct box as [sn label [a|] [b|] [c|] [d|]]; cbn; split;
      try discriminate; try reflexivity;
      try (intros _; repeat split; eexists; reflexivity);
      intros (Ha & Hb & Hc & Hd);
      repeat match goal with H : is_Some None |- _ => destruct H; discriminate end.
  - unfold some_bound_null, divide.
    destruct box as [sn label [a|] [b|] [c|] [d|]]; cbn; split;
      try discriminate; try reflexivity; try tauto.
    intros [H|[H|[H|H]]]; discriminate.
  - reflexivity.
Qed.

Lemma C9_witness :
  Num.ltb (Num.of_Z 37) (Num.of_Z 42) = true /\
  length (divide Scenario.inverted) = 4.
Proof.
  split; [reflexivity|].
  apply (C9_only_null_discards Scenario.inverted).
Defined.

(** The four quadrants of a box cut at points that lie between its bounds
    cover it and meet on the cuts only. *)
Lemma quadrants_tile (box : Row.t) (parent : Quadrant.t) :
  extent box = Some parent ->
  let y_mid := midpoint (Quadrant.y_min parent) (Quadrant.y_max parent) in
  let x_mid := midpoint (Quadrant.x_min parent) (Quadrant.x_max parent) in
  Num.leb (Quadrant.y_min parent) y_mid = true ->
  Num.leb y_mid (Quadrant.y_max parent) = true ->
  Num.leb (Quadrant.x_min parent) x_mid = true ->
  Num.leb x_mid (Quadrant.x_max parent) = true ->
  covers parent (divide box) /\ meet_on_cuts y_mid x_mid (divide box).
Proof.
  intros Hext. rewrite (extent_Some box parent Hext), divide_present.
  destruct parent as [label y_min y_max x_min x_max]. cbn.
  intros Hy1 Hy2 Hx1 Hx2. split.
  - apply quadrants_cover; assumption.
  - apply quadrants_meet_on_cuts.
Qed.

(** A sum that is finite has finite terms. *)
Lemma add_finite_terms (a b : number) :
  Num.finite (Num.add a b) -> Num.finite a /\ Num.finite b.
Proof.
  destruct a as [sa|sa| |sa ma ea], b as [sb|sb| |sb mb eb]; cbn;
    try tauto; destruct sa, sb; cbn; tauto.
Qed.

(** The midpoint of two numbers in order lies between them when their sum
    is finite. *)
Lemma midpoint_in_range (lo hi : number) :
  Num.representable lo -> Num.representable hi ->
  Num.leb lo hi = true ->
  Num.finite (Num.add lo hi) ->
  Num.leb lo (midpoint lo hi) = true /\ Num.leb (midpoint lo hi) hi = true.
Proof.
  intros Vlo Vhi Hle Fsum.
  destruct (add_finite_terms lo hi Fsum) as [Flo Fhi].
  destruct (FloatFacts.midpoint_between lo hi Vlo Vhi Flo Fhi Hle Fsum)
    as (_ & _ & H1 & H2).
  split; assumption.
Qed.

(** Two different quadrants of a box meet on the cut lines only, whatever
    its bounds are. *)
Lemma quadrants_overlap_on_cuts (box : Row.t) (parent : Quadrant.t) :
  extent box = Some parent ->
  meet_on_cuts (midpoint (Quadrant.y_min parent) (Quadrant.y_max parent))
    (midpoint (Quadrant.x_min parent) (Quadrant.x_max parent)) (divide box).
Proof.
  intros Hext. rewrite (extent_Some box parent Hext), divide_present.
  destruct parent as [label y_min y_max x_min x_max]. cbn.
  apply quadrants_meet_on_cuts.
Qed.

(** C1, as the code has it: a box whose four bounds are present yields
    exactly four quadrants, in the order south-west, south-east, north-west,
    north-east, cut at [y_mid = (y_min + y_max) / 2] and
    [x_mid = (x_min + x_max) / 2], and two different quadrants have in common
    only points of the cut lines, whatever the bounds are.  When
    [y_min <= y_max] and [x_min <= x_max] and both sums are finite (no bound
    is NaN or infinite and no sum overflows), the midpoints lie between the
    bounds and the quadrants cover exactly the parent. *)
Theorem C1_quadrants_tile_box (box : Row.t) (parent : Quadrant.t) :
  extent box = Some parent ->
  let label := Quadrant.COUNTY_NAME parent in
  let y_min := Quadrant.y_min parent in
  let y_max := Quadrant.y_max parent in
  let x_min := Quadrant.x_min parent in
  let x_max := Quadrant.x_max parent in
  let y_mid := midpoint y_min y_max in
  let x_mid := midpoint x_min x_max in
  divide box =
    [ Quadrant.mk label y_min y_mid x_min x_mid;
      Quadrant.mk label y_min y_mid x_mid x_max;
      Quadrant.mk label y_mid y_max x_min x_mid;
      Quadrant.mk label y_mid y_max x_mid x_max ] /\
  meet_on_cuts y_mid x_mid (divide box) /\
  (Num.representable y_min /\ Num.representable y_max /\
   Num.representable x_min /\ Num.representable x_max ->
   Num.leb y_min y_max = true -> Num.leb x_min x_max = true ->
   Num.finite (Num.add y_min y_max) -> Num.finite (Num.add x_min x_max) ->
   (Num.leb y_min y_mid = true /\ Num.leb y_mid y_max = true) /\
   (Num.leb x_min x_mid = true /\ Num.leb x_mid x_max = true) /\
   covers parent (divide box)).
Proof.
  intros Hext. cbv zeta. split; [|split].
  - rewrite (extent_Some box parent Hext) at 1. apply divide_present.
  - apply quadrants_overlap_on_cuts. assumption.
  - intros (Vy1 & Vy2 & Vx1 & Vx2) Hy Hx Sy Sx.
    destruct (midpoint_in_range _ _ Vy1 Vy2 Hy Sy) as [Hy1 Hy2].
    destruct (midpoint_in_range _ _ Vx1 Vx2 Hx Sx) as [Hx1 Hx2].
    split; [split; assumption|]. split; [split; assumption|].
    apply (quadrants_tile box parent Hext); assumption.
Qed.

Lemma C1_witness :
  divide Scenario.california =
    [ Quadrant.mk None (Num.decimal 325 10) (Num.decimal 3725 100)
        (Num.decimal (-1244) 10) (Num.decimal (-11925) 100);
      Quadrant.mk None (Num.decimal 325 10) (Num.decimal 3725 100)
        (Num.decimal (-11925) 100) (Num.decimal (-1141) 10);
      Quadrant.mk None (Num.decimal 3725 100) (Num.decimal 420 10)
        (Num.decimal (-1244) 10) (Num.decimal (-11925) 100);
      Quadrant.mk None (Num.decimal 3725 100) (Num.decimal 420 10)
        (Num.decimal (-11925) 100) (Num.decimal (-1141) 10) ] /\
  meet_on_cuts (Num.decimal 3725 100) (Num.decimal (-11925) 100)
    (divide Scenario.california) /\
  covers Scenario.california_extent (divide Scenario.california).
Proof.
  destruct (C1_quadrants_tile_box Scenario.california Scenario.california_extent
              eq_refl) as (Hd & Hm & Ht).
  split; [exact Hd|]. split; [exact Hm|].
  apply Ht; repeat split; reflexivity.
Defined.

(** C1 as stated does not hold for every box whose bounds are present: the
    union of the quadrants need not be the parent.  For
    the bounds [1e308] and [1.5e308] the sum overflows, the midpoint is
    [Infinity], the south-west quadrant reaches north of the parent and
    contains a point that the parent does not.  For the inverted bounds
    [y_min = 1 + 2 ^ -52] and [y_max = 1] the sum rounds to [2], the midpoint
    is [1], and the north-west quadrant contains a point although the parent
    contains none. *)
Lemma C1_counterexample :
  (extent Scenario.huge = Some Scenario.huge_extent /\
   length (divide Scenario.huge) = 4 /\
   (exists south_west, nth_error (divide Scenario.huge) 0 = Some south_west /\
      Num.ltb (Quadrant.y_max Scenario.huge_extent) (Quadrant.y_max south_west)
        = true) /\
   ~ covers Scenario.huge_extent (divide Scenario.huge)) /\
  (extent Scenario.just_inverted = Some Scenario.just_inverted_extent /\
   ~ covers Scenario.just_inverted_extent (divide Scenario.just_inverted)).
Proof.
  split.
  - split; [reflexivity|]. split; [reflexivity|].
    split; [eexists; split; reflexivity|].
    intros H. destruct (H Scenario.far_north) as [_ Hin].
    assert (Hp : inside Scenario.far_north Scenario.huge_extent = true).
    { apply Hin. eexists. split; [left; reflexivity|]. vm_compute. reflexivity. }
    vm_compute in Hp. discriminate Hp.
  - split; [reflexivity|].
    intros H. destruct (H Scenario.at_one) as [_ Hin].
    assert (Hp : inside Scenario.at_one Scenario.just_inverted_extent = true).
    { apply Hin. eexists. split; [right; right; left; reflexivity|].
      vm_compute. reflexivity. }
    vm_compute in Hp. discriminate Hp.
Qed.

(** ** The look-up and its retries *)

Ltac from_start :=
  cbn [initial queries searches length Nat.add app fst snd] in *.

(** C3: the look-up makes at most three attempts, one query each.  An attempt
    fails iff its query errors or returns zero rows.  The first attempt that
    does not fail ends the look-up with its rows: when the store fails twice
    and then succeeds, the rows of the third answer are returned after exactly
    three attempts.  When all three attempts fail, the look-up throws after
    exactly three attempts. *)
Theorem C3_lookup_retries (store : Store) (state : string) :
  let r := lookup store state initial in
  let fails i := attempt_fails (answer store state i) = true in
  attempt (snd r) <= 3 /\
  queries (snd r) = replicate (attempt (snd r)) (boundingBoxesQuery state) /\
  (forall k, k < 3 -> (forall i, i < k -> fails i) ->
     attempt_fails (answer store state k) = false ->
     exists rows,
       answer store state k = Fulfilled {| data := Some rows; error := None |} /\
       fst r = Normal rows /\ attempt (snd r) = k + 1) /\
  (forall rows, fails 0 -> fails 1 ->
     answer store state 2 = Fulfilled {| data := Some rows; error := None |} ->
     rows <> [] ->
     fst r = Normal rows /\ attempt (snd r) = 3) /\
  (fails 0 -> fails 1 -> fails 2 ->
     (exists err, fst r = Throw err) /\ attempt (snd r) = 3).
Proof.
  cbv zeta.
  pose proof (lookup_spec store state initial) as H.
  remember (lookup store state initial) as r eqn:Er. clear Er.
  assert (General : forall k, k < 3 ->
            (forall i, i < k -> attempt_fails (answer store state i) = true) ->
            attempt_fails (answer store state k) = false ->
            exists rows,
              answer store state k
                = Fulfilled {| data := Some rows; error := None |} /\
              fst r = Normal rows /\ attempt (snd r) = k + 1).
  { intros k Hk Hbefore Hok.
    destruct H as [k' rows s' Hk' Hfail Hans Hne Hb Hat Hq Hs
                  |err before s' Hfail He Hat Hq Hs Hc]; from_start.
    - assert (k' = k) as ->.
      { destruct (Nat.lt_trichotomy k' k) as [Hlt|[Heq|Hgt]]; [|assumption|].
        - specialize (Hbefore k' Hlt). rewrite Hans in Hbefore.
          rewrite found_not_fails in Hbefore by assumption. discriminate.
        - specialize (Hfail k Hgt). congruence. }
      exists rows. auto.
    - specialize (Hfail k Hk). congruence. }
  split; [|split; [|split; [exact General|split]]].
  - destruct H; cbn [snd]; unfold maxRetries in *; lia.
  - destruct H as [k' rows s' Hk' Hfail Hans Hne Hb Hat Hq Hs
                  |err before s' Hfail He Hat Hq Hs Hc]; from_start;
      rewrite Hq, Hat; reflexivity.
  - intros rows F0 F1 Hans Hne.
    destruct (General 2) as (rows' & Hans' & Hr & Hat).
    + lia.
    + intros i Hi. destruct i as [|[|i]]; [assumption|assumption|lia].
    + rewrite Hans. apply found_not_fails. assumption.
    + split; [|assumption]. congruence.
  - intros F0 F1 F2.
    destruct H as [k' rows s' Hk' Hfail Hans Hne Hb Hat Hq Hs
                  |err before s' Hfail He Hat Hq Hs Hc]; from_start.
    + exfalso.
      assert (attempt_fails (answer store state k') = true) as Hf
        by (unfold maxRetries in Hk';
            destruct k' as [|[|[|k']]]; [assumption|assumption|assumption|lia]).
      rewrite Hans, found_not_fails in Hf by assumption. discriminate.
    + split; [exists err; reflexivity|assumption].
Qed.

Lemma C3_witness :
  (let r := lookup (Scenario.scripted
                      [Scenario.failure "timeout"; Scenario.no_rows]
                      (Scenario.rows_found [Scenario.california]))
                   "california" initial in
   fst r = Normal [Scenario.california] /\ attempt (snd r) = 3) /\
  (let r := lookup (Scenario.scripted [] Scenario.no_rows) "california" initial in
   (exists err, fst r = Throw err) /\ attempt (snd r) = 3).
Proof.
  split.
  - apply (C3_lookup_retries
             (Scenario.scripted
                [Scenario.failure "timeout"; Scenario.no_rows]
                (Scenario.rows_found [Scenario.california]))
             "california");
      [reflexivity|reflexivity|reflexivity|discriminate].
  - apply (C3_lookup_retries (Scenario.scripted [] Scenario.no_rows) "california");
      reflexivity.
Defined.


(** ** The error of an exhausted look-up *)

Lemma prefix_refl (s : string) : String.prefix s s = true.
Proof.
  induction s as [|c s IH]; cbn; [reflexivity|].
  destruct (ascii_dec c c) as [_|Hne]; [assumption|congruence].
Qed.

Lemma includes_refl (s : string) : includes s s = true.
Proof. destruct s; cbn [includes]; rewrite prefix_refl; reflexivity. Qed.

(** A text includes what it ends with. *)
Lemma includes_suffix (before s : string) : includes (before +:+ s) s = true.
Proof.
  induction before as [|c before IH].
  - apply includes_refl.
  - change (String c before +:+ s) with (String c (before +:+ s)).
    cbn [includes]. rewrite IH. apply orb_true_r.
Qed.

(** A text includes what it begins with. *)
Lemma prefix_app (s rest : string) : String.prefix s (s +:+ rest) = true.
Proof.
  induction s as [|c s IH].
  - destruct rest; reflexivity.
  - change (String c s +:+ rest) with (String c (s +:+ rest)).
    cbn [String.prefix].
    destruct (ascii_dec c c) as [_|Hne]; [assumption|congruence].
Qed.

Lemma includes_prefix (s rest : string) : includes (s +:+ rest) s = true.
Proof.
  destruct (s +:+ rest) eqn:E; cbn [includes]; rewrite <- E, prefix_app;
    reflexivity.
Qed.

(** C7, as the code has it: when all three attempts fail, the error that
    reaches the caller is the error of the third attempt, unchanged: the
    store's error or rejection when the third query errored, and otherwise an
    error whose message is "No bounding boxes found for state: <state>",
    which names the state.  The attempt count is not in the error: it is in
    the console line "Failed after 3 attempts: <message>", the last one
    logged. *)
Theorem C7_error_of_last_attempt (store : Store) (state : string) :
  (forall i, i < maxRetries -> attempt_fails (answer store state i) = true) ->
  let r := lookup store state initial in
  exists (err : Thrown) (before : list LogEntry),
    fst r = Throw err /\
    (forall provider, fst (run store provider {| state := state |}) = Throw err) /\
    attempt_error state (answer store state 2) = Some err /\
    (query_errors (answer store state 2) = false ->
     err = ThrownError ("No bounding boxes found for state: " +:+ state) /\
     includes (message_of err) state = true) /\
    (forall reason, answer store state 2 = Rejected reason ->
     err = ThrownRejection reason) /\
    (forall r3 e, answer store state 2 = Fulfilled r3 -> error r3 = Some e ->
     err = ThrownPostgrest e) /\
    console (snd r) = before ++ [failed_line err] /\
    text (failed_line err)
      = "Failed after " +:+ decimal_of_nat maxRetries +:+ " attempts: "
        +:+ message_of err /\
    includes (text (failed_line err)) (decimal_of_nat maxRetries) = true.
Proof.
  intros Hall. cbv zeta.
  pose proof (lookup_spec store state initial) as H.
  pose proof (fun provider => run_throws_state store provider state) as Hrun.
  remember (lookup store state initial) as r eqn:Er. clear Er.
  destruct H as [k' rows s' Hk' Hfail Hans Hne Hb Hat Hq Hs
                |err before s' Hfail He Hat Hq Hs Hc]; from_start.
  - specialize (Hall k' Hk'). rewrite Hans, found_not_fails in Hall by assumption.
    discriminate.
  - exists err, before. cbn [maxRetries Nat.sub] in He.
    split; [reflexivity|]. split; [intros provider; apply Hrun; reflexivity|].
    split; [assumption|].
    unfold attempt_error, query_errors in *.
    destruct (answer store state 2) as [[d [e|]]|reason];
      [|cbn in He; destruct (null_or_empty d); [|discriminate]|];
      injection He as <-;
      repeat split;
      try discriminate; try assumption;
      try apply includes_suffix;
      try apply (includes_prefix "Failed after 3");
      try (intros reason' E; congruence);
      try (intros r3 e' E3 E'; injection E3 as <-; cbn in E'; congruence).
Qed.

Lemma C7_witness :
  exists (err : Thrown) (before : list LogEntry),
    fst (lookup (Scenario.scripted [] Scenario.no_rows) "california" initial)
      = Throw err /\
    message_of err = "No bounding boxes found for state: california" /\
    text (failed_line err)
      = "Failed after 3 attempts: No bounding boxes found for state: california".
Proof.
  destruct (C7_error_of_last_attempt
              (Scenario.scripted [] Scenario.no_rows) "california")
    as (err & before & Hr & _ & _ & Hm & _ & _ & _ & Ht & _).
  - intros i Hi. destruct i; reflexivity.
  - exists err, before. destruct (Hm eq_refl) as [-> _].
    split; [exact Hr|]. split; reflexivity.
Defined.

(** C7 as stated does not hold: with state "california" and a store that
    returns zero rows on each of the three attempts, the look-up is exhausted
    and the message of the error it throws names the state but not the attempt
    count. *)
Lemma C7_counterexample :
  let store := Scenario.scripted [] Scenario.no_rows in
  (forall i, i < maxRetries -> attempt_fails (answer store "california" i) = true) /\
  exists err,
    fst (lookup store "california" initial) = Throw err /\
    includes (message_of err) "california" = true /\
    includes (message_of err) (decimal_of_nat maxRetries) = false.
Proof.
  split.
  - intros i Hi. destruct i; reflexivity.
  - eexists. split; [reflexivity|]. split; reflexivity.
Qed.

(** ** The check after the loop *)

(** C10: the loop always ends; when it ends without throwing, [boundingBoxes]
    holds a list that is neither null nor empty, so the check that follows the
    loop never throws "Bounding boxes data is null", neither out of the
    look-up nor out of the tool, whatever the store does. *)
Theorem C10_null_check_unreachable (store : Store) (state : string) :
  let r := retry store state initial in
  fst r <> Pending /\
  (fst r = Normal tt ->
   exists rows, boundingBoxes (snd r) = Some rows /\ rows <> []) /\
  fst (lookup store state initial)
    <> Throw (ThrownError "Bounding boxes data is null") /\
  (forall provider,
     fst (run store provider {| state := state |})
       <> Throw (ThrownError "Bounding boxes data is null")).
Proof.
  cbv zeta.
  assert (Hlookup : fst (lookup store state initial)
                      <> Throw (ThrownError "Bounding boxes data is null")).
  { pose proof (lookup_spec store state initial) as H.
    remember (lookup store state initial) as r eqn:Er. clear Er.
    destruct H as [k' rows s' Hk' Hfail Hans Hne Hb Hat Hq Hs
                  |err before s' Hfail He Hat Hq Hs Hc]; from_start.
    - discriminate.
    - intros E. injection E as ->. unfold attempt_error in He.
      destruct (answer store state (maxRetries - 1)) as [[d [e|]]|reason];
        try discriminate.
      cbn in He. destruct (null_or_empty d); discriminate He. }
  rewrite retry_unfold.
  pose proof (retry_loop_spec store state maxRetries
                {| attempt := 0; boundingBoxes := None; console := console initial;
                   queries := queries initial; searches := searches initial |})
    as H.
  cbv zeta in H. cbn [attempt] in H.
  destruct H as (_ & H); [unfold maxRetries; lia|lia|].
  repeat split.
  - destruct H as [(k & rows & _ & _ & _ & _ & -> & _)
                  |(_ & err & _ & -> & _)]; discriminate.
  - intros Hn.
    destruct H as [(k & rows & _ & _ & _ & Hne & _ & Hb & _)
                  |(_ & err & _ & Ht & _)].
    + exists rows. split; assumption.
    + rewrite Ht in Hn. discriminate.
  - exact Hlookup.
  - intros provider E. apply run_throws_state in E. apply Hlookup. exact E.
Qed.

Lemma C10_witness :
  exists rows,
    boundingBoxes
      (snd (retry (Scenario.scripted [Scenario.no_rows]
                     (Scenario.rows_found [Scenario.california]))
                  "california" initial))
      = Some rows /\ rows <> [].
Proof.
  apply (C10_null_check_unreachable
           (Scenario.scripted [Scenario.no_rows]
              (Scenario.rows_found [Scenario.california])) "california").
  reflexivity.
Defined.

(** ** Aggregation of the searches *)

Lemma values_quadrants (provider : Provider) (divided : list Quadrant.t) :
  values provider (map search_request divided)
  = imap (fun i box => contribution (respond provider i (search_request box)))
      divided.
Proof. unfold values. rewrite imap_fmap. reflexivity. Qed.

(** C2: each quadrant contributes the place ids of its search in provider
    order when the provider reports OK with results, and nothing when it
    reports another status or no results; every search is issued, and once
    the callbacks have run, in whatever order, the searches yield these
    contributions in quadrant order and the tool returns their concatenation,
    in which no id is dropped, without throwing. *)
Theorem C2_contributions_concatenated (provider : Provider)
    (divided : list Quadrant.t) (s : Frame) :
  calls_back provider ->
  let per_quadrant :=
    imap (fun i box => contribution (respond provider i (search_request box)))
      divided in
  (forall results, contribution (Some results, OK) = map place_id results) /\
  (forall results status, status <> OK -> contribution (results, status) = []) /\
  (forall status, contribution (None, status) = []) /\
  fst (searchResults provider divided s) = Normal per_quadrant /\
  searches (snd (searchResults provider divided s))
    = searches s ++ map search_request divided /\
  length (concat per_quadrant) = list_sum (map length per_quadrant) /\
  (forall store input rows,
     fst (lookup store (state input) initial) = Normal rows ->
     dividedBoundingBoxes rows = divided ->
     fst (run store provider input) = Normal (concat per_quadrant)).
Proof.
  intros Hcb. cbv zeta. rewrite <- values_quadrants.
  destruct (searchResults_cases provider divided s)
    as (s' & _ & _ & _ & Hse & _ & Hrun).
  rewrite (Hrun Hcb). cbn [fst snd].
  repeat split; try assumption.
  - intros results status Hne. unfold contribution.
    destruct results as [results|]; [|reflexivity].
    destruct (String.eqb_spec status OK); [contradiction|reflexivity].
  - generalize (values provider (map search_request divided)) as lists.
    induction lists as [|ids lists IH]; [reflexivity|].
    cbn [concat map list_sum]. rewrite length_app, IH. reflexivity.
  - intros store input rows Hrows <-.
    apply (run_found store provider input rows Hrows); [|assumption].
    apply lookup_searches.
Qed.

Lemma C2_witness :
  fst (searchResults Scenario.four_answers (divide Scenario.california) initial)
    = Normal [["a"; "b"]; []; ["c"]; []] /\
  fst (run (Scenario.scripted [] (Scenario.rows_found [Scenario.california]))
         Scenario.four_answers {| state := "california" |})
    = Normal ["a"; "b"; "c"].
Proof.
  assert (Hcb : calls_back Scenario.four_answers).
  { intros n i Hi. cbn. apply (proj1 (in_rev _ _)), (proj2 (in_seq _ _ _)). lia. }
  destruct (C2_contributions_concatenated Scenario.four_answers
              (divide Scenario.california) initial Hcb)
    as (_ & _ & _ & Hsearch & _ & _ & Hrun).
  split.
  - exact Hsearch.
  - apply (Hrun (Scenario.scripted [] (Scenario.rows_found [Scenario.california]))
             {| state := "california" |} [Scenario.california]);
      reflexivity.
Defined.

(** ** Failure of the tool *)

(** C4: the tool throws iff the look-up exhausts its three attempts.  When
    the look-up finds rows and the callbacks have run, the tool returns the
    concatenated contributions: the empty list when every row has a null
    bound, and the empty list when every search fails or finds nothing. *)
Theorem C4_fails_iff_lookup_exhausted (store : Store) (provider : Provider)
    (input : BoundingBoxInput) :
  let exhausted :=
    forall i, i < maxRetries ->
      attempt_fails (answer store (state input) i) = true in
  let r := run store provider input in
  ((exists err, fst r = Throw err) <-> exhausted) /\
  (calls_back provider -> ~ exhausted -> exists placeIds, fst r = Normal placeIds) /\
  (calls_back provider ->
   forall rows, fst (lookup store (state input) initial) = Normal rows ->
     (Forall some_bound_null rows -> fst r = Normal []) /\
     ((forall i request, contribution (respond provider i request) = []) ->
      fst r = Normal [])).
Proof.
  cbv zeta.
  pose proof (lookup_spec store (state input) initial) as H.
  pose proof (run_throws store provider input) as Hthrow.
  pose proof (run_found store provider input) as Hfound.
  pose proof (lookup_searches store (state input)) as Hnone.
  remember (lookup store (state input) initial) as r eqn:Er. clear Er.
  split; [|split].
  - destruct H as [k' rows s' Hk' Hfail Hans Hne Hb Hat Hq Hs
                  |err before s' Hfail He Hat Hq Hs Hc]; from_start.
    + split.
      * intros [err Herr]. apply Hthrow in Herr. discriminate.
      * intros Hall. specialize (Hall k' Hk').
        rewrite Hans, found_not_fails in Hall by assumption. discriminate.
    + split; [intros _; assumption|].
      intros _. exists err. apply Hthrow. reflexivity.
  - intros Hcb Hnot.
    destruct H as [k' rows s' Hk' Hfail Hans Hne Hb Hat Hq Hs
                  |err before s' Hfail He Hat Hq Hs Hc]; from_start.
    + eexists. apply (Hfound rows); auto.
    + contradiction.
  - intros Hcb rows Hrows.
    destruct (Hfound rows Hrows Hnone) as [_ Hrun]. rewrite (Hrun Hcb).
    split.
    + intros Hnull.
      assert (dividedBoundingBoxes rows = []) as ->; [|reflexivity].
      clear -Hnull. induction Hnull as [|box rows Hbox _ IH]; [reflexivity|].
      unfold dividedBoundingBoxes in *. cbn [flat_map]. rewrite IH.
      destruct Hbox as [E|[E|[E|E]]]; unfold divide; rewrite E;
        repeat match goal with
               | |- context [match ?o with _ => _ end] => destruct o
               end; reflexivity.
    + intros Hempty. unfold values.
      generalize (map search_request (dividedBoundingBoxes rows)) as requests.
      intros requests. f_equal.
      assert (G : forall (f : nat -> PlaceSearchRequest -> list string),
                (forall i request, f i request = []) ->
                concat (imap f requests) = []).
      { clear. induction requests as [|request requests IH]; intros f Hf;
          [reflexivity|].
        cbn [imap concat]. rewrite Hf. cbn [app]. apply IH.
        intros i request'. apply Hf. }
      apply G. intros i request. apply Hempty.
Qed.

Lemma C4_witness :
  (exists err,
     fst (run (Scenario.scripted [] Scenario.no_rows) Scenario.unavailable
            {| state := "california" |}) = Throw err) /\
  fst (run (Scenario.scripted [] (Scenario.rows_found [Scenario.partial_row]))
         Scenario.unavailable {| state := "nevada" |}) = Normal [] /\
  fst (run (Scenario.scripted [] (Scenario.rows_found [Scenario.california]))
         Scenario.unavailable {| state := "california" |}) = Normal [].
Proof.
  assert (Hcb : calls_back Scenario.unavailable).
  { intros n i Hi. cbn. apply (proj2 (in_seq _ _ _)). lia. }
  split; [|split].
  - apply (C4_fails_iff_lookup_exhausted (Scenario.scripted [] Scenario.no_rows)
             Scenario.unavailable {| state := "california" |}).
    intros i Hi. destruct i; reflexivity.
  - destruct (C4_fails_iff_lookup_exhausted
                (Scenario.scripted [] (Scenario.rows_found [Scenario.partial_row]))
                Scenario.unavailable {| state := "nevada" |})
      as (_ & _ & H).
    destruct (H Hcb [Scenario.partial_row] eq_refl) as [Hnull _].
    apply Hnull. constructor; [|constructor]. right; left; reflexivity.
  - destruct (C4_fails_iff_lookup_exhausted
                (Scenario.scripted [] (Scenario.rows_found [Scenario.california]))
                Scenario.unavailable {| state := "california" |})
      as (_ & _ & H).
    destruct (H Hcb [Scenario.california] eq_refl) as [_ Hfail].
    apply Hfail. intros i request. reflexivity.
Defined.

(** ** Determinism of the subdivision *)

(** C8: the quadrants of a box are a function of its label and its four
    bounds and of nothing else: two rows that agree on them yield the same
    quadrants, in the same order; and two calls of the tool whose look-ups
    found the same rows issue the same searches, one per quadrant of these
    rows, in the same order, whatever the stores and the providers do. *)
Theorem C8_subdivision_deterministic :
  (forall (name1 name2 label : option string)
          (y_min y_max x_min x_max : option number),
     divide (Row.mk name1 label y_min y_max x_min x_max)
     = divide (Row.mk name2 label y_min y_max x_min x_max)) /\
  (forall (store1 store2 : Store) (provider1 provider2 : Provider)
          (input1 input2 : BoundingBoxInput) (rows : list Row.t),
     fst (lookup store1 (state input1) initial) = Normal rows ->
     fst (lookup store2 (state input2) initial) = Normal rows ->
     searches (snd (run store1 provider1 input1))
       = map search_request (dividedBoundingBoxes rows) /\
     searches (snd (run store2 provider2 input2))
       = map search_request (dividedBoundingBoxes rows)).
Proof.
  split.
  - reflexivity.
  - intros store1 store2 provider1 provider2 input1 input2 rows H1 H2. split.
    + apply (run_found store1 provider1 input1 rows H1). apply lookup_searches.
    + apply (run_found store2 provider2 input2 rows H2). apply lookup_searches.
Qed.

Lemma C8_witness :
  searches
    (snd (run (Scenario.scripted [Scenario.no_rows]
                 (Scenario.rows_found [Scenario.california]))
              Scenario.four_answers {| state := "california" |}))
  = searches
      (snd (run (Scenario.scripted [] (Scenario.rows_found [Scenario.california]))
                Scenario.unavailable {| state := "CALIFORNIA" |})).
Proof.
  destruct C8_subdivision_deterministic as [_ H].
  destruct (H (Scenario.scripted [Scenario.no_rows]
                 (Scenario.rows_found [Scenario.california]))
              (Scenario.scripted [] (Scenario.rows_found [Scenario.california]))
              Scenario.four_answers Scenario.unavailable
              {| state := "california" |} {| state := "CALIFORNIA" |}
              [Scenario.california] eq_refl eq_refl) as [H1 H2].
  rewrite H1, H2. reflexivity.
Defined.

(** ** The query of the look-up *)

Lemma selected_query (state : string) (row : Row.t) :
  Table.selected (boundingBoxesQuery state) row =
  match Row.STATE_NAME row with
  | Some name => Table.ilike state name
  | None => Some false
  end.
Proof.
  unfold Table.selected. cbn. destruct (Row.STATE_NAME row) as [name|];
    [|reflexivity].
  destruct (Table.ilike state name) as [[]|]; reflexivity.
Qed.

(** Every query of a look-up is the query of the state. *)
Lemma lookup_queries (store : Store) (state : string) (q : Query.t) :
  In q (queries (snd (lookup store state initial))) ->
  q = boundingBoxesQuery state.
Proof.
  pose proof (lookup_spec store state initial) as H.
  remember (lookup store state initial) as r eqn:Er. clear Er.
  intros Hin.
  assert (Hq : exists n, queries (snd r) = replicate n (boundingBoxesQuery state)).
  { destruct H; from_start; eauto. }
  destruct Hq as [n Hq]. rewrite Hq in Hin.
  apply list_elem_of_In, elem_of_replicate in Hin. apply Hin.
Qed.

(** The scan of the table stops at the first row that matches. *)
Lemma fetch_first (q : Query.t) (first : Row.t) (after : list Row.t) :
  forall before : list Row.t,
    Forall (fun row => Table.selected q row = Some false) before ->
    Table.selected q first = Some true ->
    Table.fetch q (Some 1) (before ++ first :: after) = Some [first].
Proof.
  induction before as [|row before IH]; intros Hb Hf.
  - cbn [app Table.fetch]. rewrite Hf. destruct after; reflexivity.
  - inversion Hb as [|? ? Hrow Hrest]; subst.
    cbn [app Table.fetch]. rewrite Hrow. apply IH; assumption.
Qed.

Lemma fetch_none (q : Query.t) (table : list Row.t) :
  Forall (fun row => Table.selected q row = Some false) table ->
  Table.fetch q (Some 1) table = Some [].
Proof.
  induction 1 as [|row table Hrow _ IH]; [reflexivity|].
  cbn [Table.fetch]. rewrite Hrow. exact IH.
Qed.

(** *** Patterns *)

Lemma lower_star (c : ascii) :
  Table.lower (Table.star c) = Table.star (Table.lower c).
Proof. destruct c as [[] [] [] [] [] [] [] []]; reflexivity. Qed.

Lemma lowercase_stars (s : string) :
  Table.lowercase (Table.stars s) = Table.stars (Table.lowercase s).
Proof.
  induction s as [|c s IH]; [reflexivity|].
  cbn [Table.stars Table.lowercase]. rewrite lower_star, IH. reflexivity.
Qed.

Lemma lowercase_app (s t : string) :
  Table.lowercase (s +:+ t) = Table.lowercase s +:+ Table.lowercase t.
Proof.
  induction s as [|c s IH]; [reflexivity|].
  change (String c s +:+ t) with (String c (s +:+ t)).
  cbn [Table.lowercase]. rewrite IH. reflexivity.
Qed.

Lemma stars_app (s t : string) :
  Table.stars (s +:+ t) = Table.stars s +:+ Table.stars t.
Proof.
  induction s as [|c s IH]; [reflexivity|].
  change (String c s +:+ t) with (String c (s +:+ t)).
  cbn [Table.stars]. rewrite IH. reflexivity.
Qed.

Lemma plain_char_lower (c : ascii) :
  Table.plain_char (Table.lower c) = Table.plain_char c.
Proof. destruct c as [[] [] [] [] [] [] [] []]; reflexivity. Qed.

Lemma plain_char_spec (c : ascii) :
  Table.plain_char c = true ->
  Ascii.eqb c "%" = false /\ Ascii.eqb c "_" = false /\
  Ascii.eqb c "\" = false /\ Table.star c = c /\
  Table.is_continuation c = false.
Proof. destruct c as [[] [] [] [] [] [] [] []]; cbn; intros H; try discriminate H; repeat split. Qed.

Lemma plain_cons (c : ascii) (s : string) :
  Table.plain (String c s) = Table.plain_char c && Table.plain s.
Proof. reflexivity. Qed.

Lemma plain_lowercase (s : string) :
  Table.plain (Table.lowercase s) = Table.plain s.
Proof.
  induction s as [|c s IH]; [reflexivity|].
  cbn [Table.lowercase]. rewrite !plain_cons, plain_char_lower, IH. reflexivity.
Qed.

Lemma plain_stars (s : string) : Table.plain s = true -> Table.stars s = s.
Proof.
  induction s as [|c s IH]; [reflexivity|].
  rewrite plain_cons. intros H. apply andb_prop in H. destruct H as [Hc Hs].
  cbn [Table.stars]. rewrite (IH Hs).
  destruct (plain_char_spec c Hc) as (_ & _ & _ & -> & _). reflexivity.
Qed.

Lemma ascii_lowercase (s : string) :
  Table.is_ascii (Table.lowercase s) = Table.is_ascii s.
Proof.
  induction s as [|c s IH]; [reflexivity|].
  cbn [Table.lowercase Table.is_ascii]. rewrite IH. f_equal.
  destruct c as [[] [] [] [] [] [] [] []]; reflexivity.
Qed.

Lemma ascii_not_continuation (c : ascii) :
  (nat_of_ascii c <? 128)%nat = true -> Table.is_continuation c = false.
Proof. destruct c as [[] [] [] [] [] [] [] []]; cbn; intros H; try discriminate H; reflexivity. Qed.

Lemma plain_split (c : ascii) (s : string) :
  Table.plain (String c s) = true ->
  Ascii.eqb c "%" = false /\ Ascii.eqb c "_" = false /\
  Ascii.eqb c "\" = false /\ Table.plain s = true.
Proof.
  rewrite plain_cons. intros H. apply andb_prop in H. destruct H as [Hc Hs].
  destruct (plain_char_spec c Hc) as (H1 & H2 & H3 & _). auto.
Qed.

(** A plain pattern matches the text that is equal to it, and no other. *)
Lemma match_plain (x : string) : forall t : string,
  Table.plain x = true ->
  Table.verdict (Table.match_text x t) = Some (String.eqb x t).
Proof.
  induction x as [|c x IH]; intros t Hp.
  - destruct t; reflexivity.
  - destruct (plain_split c x Hp) as (H1 & H2 & H3 & Hx).
    destruct t as [|a t]; cbn [Table.match_text Table.trailing String.eqb].
    + rewrite H1. reflexivity.
    + rewrite H3, H1, H2. destruct (Ascii.eqb c a); [apply IH; assumption|].
      reflexivity.
Qed.

(** A plain pattern followed by [%]: it matches the texts that begin with
    it; a text that ends before the pattern does is too short. *)
Lemma match_prefix (x : string) : forall t : string,
  Table.plain x = true ->
  (String.prefix x t = true ->
   Table.match_text (x +:+ "%") t = Table.LIKE_TRUE) /\
  (String.prefix x t = false ->
   Table.match_text (x +:+ "%") t = Table.LIKE_FALSE \/
   (Table.match_text (x +:+ "%") t = Table.LIKE_ABORT /\
    String.length t < String.length x)).
Proof.
  induction x as [|c x IH]; intros t Hp.
  - split; [|destruct t; discriminate]. intros _. destruct t; reflexivity.
  - destruct (plain_split c x Hp) as (H1 & H2 & H3 & Hx).
    change (String c x +:+ "%") with (String c (x +:+ "%")).
    destruct t as [|a t]; cbn [Table.match_text Table.trailing String.prefix].
    + rewrite H1. split; [discriminate|]. intros _. right.
      split; [reflexivity|]. cbn. lia.
    + rewrite H3, H1, H2.
      destruct (ascii_dec c a) as [->|Hne].
      * rewrite Ascii.eqb_refl. destruct (IH t Hx) as [IH1 IH2].
        split; [assumption|]. intros Hf.
        destruct (IH2 Hf) as [E|[E Hl]]; [left; assumption|].
        right. split; [assumption|]. cbn. lia.
      * apply Ascii.eqb_neq in Hne. rewrite Hne.
        split; [discriminate|]. intros _. left. reflexivity.
Qed.

(** A text includes only what is not longer than it. *)
Lemma prefix_length (x t : string) :
  String.prefix x t = true -> String.length x <= String.length t.
Proof.
  revert t. induction x as [|c x IH]; intros t H; [cbn; lia|].
  destruct t as [|a t]; [discriminate|]. cbn in H |- *.
  destruct (ascii_dec c a); [|discriminate]. specialize (IH t H). lia.
Qed.

Lemma includes_length (t x : string) :
  includes t x = true -> String.length x <= String.length t.
Proof.
  induction t as [|a t IH]; cbn [includes]; intros H.
  - rewrite orb_false_r in H. apply prefix_length. assumption.
  - apply orb_prop in H. destruct H as [H|H].
    + apply prefix_length. assumption.
    + specialize (IH H). cbn. lia.
Qed.

(** After a [%], a plain pattern followed by [%] is looked for at every
    place of an ASCII text. *)
Lemma scan_includes (c : ascii) (x : string) : forall (t : string) (inside : bool),
  Table.plain (String c x) = true -> Table.is_ascii t = true ->
  Table.scan inside c (Table.match_text (x +:+ "%")) t =
    if includes t (String c x) then Table.LIKE_TRUE else Table.LIKE_ABORT.
Proof.
  induction t as [|a t IH]; intros inside Hp Ht; [reflexivity|].
  destruct (plain_split c x Hp) as (H1 & H2 & H3 & Hx).
  cbn [Table.is_ascii] in Ht. apply andb_prop in Ht. destruct Ht as [Ha Ht].
  cbn [Table.scan includes String.prefix].
  rewrite (ascii_not_continuation a Ha), andb_false_r.
  destruct (ascii_dec c a) as [->|Hne].
  - rewrite Ascii.eqb_refl. destruct (match_prefix x t Hx) as [M1 M2].
    destruct (String.prefix x t) eqn:E.
    + rewrite (M1 eq_refl). reflexivity.
    + destruct (M2 eq_refl) as [->|[-> Hl]]; cbn [orb].
      * apply IH; assumption.
      * destruct (includes t (String a x)) eqn:I; [|reflexivity].
        apply includes_length in I. cbn in I. lia.
  - assert (Ascii.eqb a c = false) as -> by (apply Ascii.eqb_neq; congruence).
    cbn [orb]. apply IH; assumption.
Qed.

(** A plain pattern between two [%] matches the ASCII texts that include
    it. *)
Lemma match_includes (x t : string) :
  Table.plain x = true -> Table.is_ascii t = true ->
  Table.verdict (Table.match_text ("%" +:+ x +:+ "%") t) = Some (includes t x).
Proof.
  intros Hp Ht.
  change ("%" +:+ x +:+ "%") with (String "%" (x +:+ "%")).
  destruct x as [|c x].
  - destruct t; reflexivity.
  - destruct (plain_split c x Hp) as (H1 & H2 & H3 & Hx).
    change (String c x +:+ "%") with (String c (x +:+ "%")).
    destruct t as [|a t].
    + cbn. rewrite H1. reflexivity.
    + cbn [Table.match_text Table.after_percent].
      change (Ascii.eqb "%" "\") with false. change (Ascii.eqb "%" "%") with true.
      cbv iota. rewrite H1, H2, H3.
      rewrite (scan_includes c x (String a t) false Hp Ht).
      destruct (includes (String a t) (String c x)); reflexivity.
Qed.




(** * Further properties of the tool *)

(** ** The console of the look-up *)

Lemma flat_map_seq_shift {A : Type} (f : nat -> list A) (k : nat) : forall a : nat,
  flat_map f (seq (S a) k) = flat_map (fun i => f (S i)) (seq a k).
Proof.
  induction k as [|k IH]; intros a; cbn [seq flat_map]; [reflexivity|].
  rewrite IH. reflexivity.
Qed.

Lemma attempt_lines_no_error (state : string) (n : nat) (a : Settled) :
  List.filter is_error (attempt_lines state n a) = [].
Proof.
  destruct a as [[d [e|]]|reason]; cbn; try reflexivity.
  destruct (null_or_empty d); reflexivity.
Qed.

Lemma attempts_lines_no_error (store : Store) (state : string) (n : nat) :
  List.filter is_error (attempts_lines store state n) = [].
Proof.
  unfold attempts_lines. induction (seq 0 n) as [|i l IH]; cbn [flat_map];
    [reflexivity|].
  rewrite List.filter_app, attempt_lines_no_error, IH. reflexivity.
Qed.

Section ConsoleFacts.
Variable store : Store.
Variable state : string.

(** The line that ends the console of a computation that throws. *)
Let last_line {A : Type} (c : Completion A) : list LogEntry :=
  match c with
  | Throw err => [failed_line err]
  | _ => []
  end.

(** One pass through the loop body: what it logs and how it ends. *)
Lemma pass_console (s : Frame) :
  let a := answer store state (length (queries s)) in
  let r := try_catch (try_block store state) catch_block s in
  attempt (snd r) = attempt s /\
  queries (snd r) = queries s ++ [boundingBoxesQuery state] /\
  console (snd r)
    = console s ++ attempt_lines state (attempt s) a ++ last_line (fst r) /\
  (fst r = Normal Break \/
   (fst r = Normal Fallthrough /\ attempt s < maxRetries) \/
   exists err, fst r = Throw err).
Proof.
  unfold answer, try_block, catch_block, attempt_lines, last_line, failed_line.
  unfold_M. cbn.
  destruct (store (length (queries s)) (boundingBoxesQuery state))
    as [[d [e|]]|reason]; cbn.
  - destruct (Nat.leb_spec maxRetries (attempt s)); cbn;
      rewrite <- ?app_assoc, ?app_nil_r; repeat split; eauto.
  - destruct d as [[|row rows]|]; cbn;
      try (destruct (Nat.leb_spec maxRetries (attempt s)); cbn);
      rewrite <- ?app_assoc, ?app_nil_r; repeat split; eauto.
  - destruct (Nat.leb_spec maxRetries (attempt s)); cbn;
      rewrite <- ?app_assoc, ?app_nil_r; repeat split; eauto.
Qed.

(** The loop: the lines of its passes, in order, and the line of the
    failure when it throws. *)
Lemma retry_loop_console (fuel : nat) : forall s : Frame,
  attempt s < maxRetries -> maxRetries - attempt s <= fuel ->
  let r := retry_loop store state fuel s in
  attempt s < attempt (snd r) /\
  fst r <> Pending /\
  console (snd r)
    = console s
      ++ flat_map (fun i => attempt_lines state (attempt s + S i)
                              (answer store state (length (queries s) + i)))
           (seq 0 (attempt (snd r) - attempt s))
      ++ last_line (fst r).
Proof.
  induction fuel as [|fuel IH]; intros s Ha Hf; [lia|].
  cbv zeta. rewrite retry_loop_unfold.
  destruct (Nat.ltb_spec (attempt s) maxRetries) as [_|]; [|lia].
  pose proof (pass_console (bump s)) as P. cbv zeta in P.
  destruct (try_catch _ _ (bump s)) as [c s1]. cbn [fst snd] in P.
  destruct P as (Pa & Pq & Pc & P). cbn [bump attempt queries console] in *.
  assert (One : attempt s1 - attempt s = 1) by lia.
  destruct P as [->|[[-> Hmore]|[err ->]]]; cbn [fst snd].
  - split; [lia|]. split; [discriminate|].
    rewrite Pc, One. cbn [seq flat_map last_line].
    rewrite Nat.add_0_r, Nat.add_1_r, !app_nil_r. reflexivity.
  - specialize (IH s1). rewrite Pa in IH.
    destruct IH as (IHa & IHp & IHc); [lia|lia|].
    split; [lia|]. split; [assumption|].
    rewrite IHc, Pc, Pq, length_app. cbn [length last_line].
    replace (attempt (snd (retry_loop store state fuel s1)) - attempt s)
      with (S (attempt (snd (retry_loop store state fuel s1)) - S (attempt s)))
      by lia.
    cbn [seq flat_map]. rewrite flat_map_seq_shift.
    rewrite Nat.add_0_r, Nat.add_1_r, app_nil_r, <- !app_assoc.
    replace (attempt s + 1) with (S (attempt s)) by lia.
    do 2 f_equal. f_equal.
    apply flat_map_ext. intros i. f_equal; [lia|f_equal; lia].
  - split; [lia|]. split; [discriminate|].
    rewrite Pc, One. cbn [seq flat_map last_line].
    rewrite Nat.add_0_r, Nat.add_1_r, !app_nil_r. reflexivity.
Qed.

(** The look-up: the lines of its attempts, then the line of the failure. *)
Lemma lookup_console_lines :
  let r := lookup store state initial in
  fst r <> Pending /\
  0 < attempt (snd r) /\
  console (snd r)
    = attempts_lines store state (attempt (snd r)) ++ last_line (fst r).
Proof.
  cbv zeta. rewrite lookup_unfold, retry_unfold.
  match goal with |- context [retry_loop _ _ _ ?s0] => set (s0' := s0) end.
  pose proof (retry_loop_console maxRetries s0') as H.
  pose proof (retry_loop_spec store state maxRetries s0') as G.
  cbv zeta in H, G. cbn [s0' initial attempt queries console length] in H, G.
  destruct H as (Ha & Hp & Hc); [unfold maxRetries; lia|lia|].
  destruct G as (_ & G); [unfold maxRetries; lia|lia|].
  rewrite Nat.sub_0_r in Hc.
  destruct (retry_loop store state maxRetries s0') as [c s']. cbn [fst snd] in *.
  destruct G as [(k & rows & _ & _ & _ & _ & -> & Hb & _)
                |(_ & err & _ & -> & _)].
  - rewrite Hb. cbn [fst snd]. split; [discriminate|]. split; [assumption|].
    exact Hc.
  - cbn [fst snd]. split; [discriminate|]. split; [assumption|]. exact Hc.
Qed.
End ConsoleFacts.

(** X1: whatever the store does, the console of a look-up holds the lines of
    its attempts, numbered from 1 in the order they were made, and nothing
    else but, when the look-up throws, the one line "Failed after 3 attempts:
    ..." at the end.  An attempt logs "Querying ..." before its query; it
    logs the result, and a warning for a result without rows, only when the
    response carries no error object: the error of a query that is retried is
    logged nowhere.  [console.error] is called once when the look-up throws
    and never when it returns. *)
Theorem lookup_console_trace (store : Store) (state : string) :
  let r := lookup store state initial in
  let attempts := attempt (snd r) in
  console (snd r)
    = attempts_lines store state attempts
      ++ match fst r with
         | Throw err => [failed_line err]
         | _ => []
         end /\
  length (List.filter is_error (console (snd r)))
    = match fst r with
      | Throw _ => 1
      | _ => 0
      end.
Proof.
  cbv zeta.
  destruct (lookup_console_lines store state) as (_ & _ & Hc).
  split; [exact Hc|].
  rewrite Hc, List.filter_app, attempts_lines_no_error.
  destruct (fst (lookup store state initial)); reflexivity.
Qed.

(** With a store that answers with an error, then with no rows, then with
    the rows of California, the console holds five lines and no error line. *)
Lemma lookup_console_trace_witness :
  let store := Scenario.scripted
                 [Scenario.failure "timeout"; Scenario.no_rows]
                 (Scenario.rows_found [Scenario.california]) in
  console (snd (lookup store "california" initial))
    = [ querying_line "california" 1;
        querying_line "california" 2;
        result_line 2 (Some []);
        no_rows_line "california" 2;
        querying_line "california" 3;
        result_line 3 (Some [Scenario.california]) ] /\
  length (List.filter is_error (console (snd (lookup store "california" initial))))
    = 0.
Proof.
  cbv zeta.
  destruct (lookup_console_trace
              (Scenario.scripted
                 [Scenario.failure "timeout"; Scenario.no_rows]
                 (Scenario.rows_found [Scenario.california]))
              "california") as (Hc & He).
  split; [exact Hc|exact He].
Defined.

(** ** The callbacks of the searches *)

Section CallbackFacts.
Variable provider : Provider.

(** The callback: its value and the line it logs. *)
Lemma on_results_console (args : CallbackArgs) (s : Frame) :
  on_results args s =
    (Normal (contribution args),
     {| attempt := attempt s; boundingBoxes := boundingBoxes s;
        console := console s
                   ++ (if search_failed args then [search_error_line (snd args)]
                       else []);
        queries := queries s; searches := searches s |}).
Proof.
  destruct args as [[results|] status];
    unfold on_results, contribution, search_failed;
    destruct (String.eqb status OK); unfold_M; cbn; rewrite ?app_nil_r;
    destruct s; reflexivity.
Qed.

(** The callbacks in the order of their invocation: they leave a list of
    slots, and on the console their lines in this order. *)
Lemma deliver_console (requests : list PlaceSearchRequest) (order : list nat) :
  forall (slots : Slots) (s : Frame),
    exists slots',
      deliver provider requests order slots s =
        (Normal slots',
         {| attempt := attempt s; boundingBoxes := boundingBoxes s;
            console := console s ++ callbacks_lines provider requests order;
            queries := queries s; searches := searches s |}) /\
      length slots' = length slots /\
      (forall i, ~ In i order -> slots' !! i = slots !! i).
Proof.
  unfold callbacks_lines.
  induction order as [|i later IH]; intros slots s; cbn [deliver flat_map].
  - exists slots. rewrite app_nil_r. destruct s. repeat split.
  - destruct (requests !! i) as [request|] eqn:E.
    + unfold mbind, M_bind. rewrite on_results_console.
      destruct (IH (resolve i (contribution (respond provider i request)) slots)
                  {| attempt := attempt s; boundingBoxes := boundingBoxes s;
                     console := console s
                       ++ (if search_failed (respond provider i request)
                           then [search_error_line (snd (respond provider i request))]
                           else []);
                     queries := queries s; searches := searches s |})
        as (slots' & Hd & Hlen & Hkeep).
      exists slots'. rewrite Hd. cbn [attempt boundingBoxes console queries searches].
      rewrite <- app_assoc. split; [reflexivity|]. split.
      * rewrite Hlen. unfold resolve.
        destruct (slots !! i) as [[v|]|]; rewrite ?length_insert; reflexivity.
      * intros j Hj. rewrite Hkeep by (intros Hin; apply Hj; right; exact Hin).
        unfold resolve.
        destruct (slots !! i) as [[v|]|]; try reflexivity.
        apply list_lookup_insert_ne. intros ->. apply Hj. left. reflexivity.
    + destruct (IH slots s) as (slots' & Hd & Hlen & Hkeep).
      exists slots'. rewrite Hd. cbn [app]. split; [reflexivity|].
      split; [assumption|].
      intros j Hj. apply Hkeep. intros Hin. apply Hj. right. exact Hin.
Qed.

(** The searches, with the slots the callbacks leave. *)
Lemma searchResults_slots (divided : list Quadrant.t) (s : Frame) :
  let requests := map search_request divided in
  let order := schedule provider (length requests) in
  exists slots' : Slots,
    searchResults provider divided s =
      (match settled slots' with
       | Some vs => Normal vs
       | None => Pending
       end,
       {| attempt := attempt s; boundingBoxes := boundingBoxes s;
          console := console s ++ callbacks_lines provider requests order;
          queries := queries s; searches := searches s ++ requests |}) /\
    sound provider requests slots' /\
    (forall i, i < length requests -> In i order -> filled slots' i) /\
    (forall i, i < length requests -> ~ In i order -> slots' !! i = Some None).
Proof.
  cbv zeta. unfold searchResults.
  set (requests := map search_request divided).
  destruct (issue_all requests s) as [units Hu].
  unfold mbind at 1. unfold M_bind at 1. rewrite Hu.
  unfold mbind at 1. unfold M_bind at 1.
  match goal with |- context [deliver _ _ _ _ ?s1] => set (s1' := s1) end.
  assert (Hs0 : sound provider requests (replicate (length requests) None)).
  { split; [apply length_replicate|]. intros i v Hv.
    apply lookup_replicate in Hv. destruct Hv as [Hv _]. discriminate. }
  destruct (deliver_spec provider requests (schedule provider (length requests))
              _ s1' Hs0)
    as (slots1 & s1 & Hd1 & _ & Hsound & _ & Hfilled).
  destruct (deliver_console requests (schedule provider (length requests))
              (replicate (length requests) None) s1')
    as (slots' & Hd & Hlen & Hkeep).
  rewrite Hd in Hd1. injection Hd1 as <- _.
  exists slots'. rewrite Hd. subst s1'.
  cbn [attempt boundingBoxes console queries searches].
  split; [destruct (settled slots'); reflexivity|].
  split; [assumption|]. split.
  - intros i Hi Hin. apply Hfilled; assumption.
  - intros i Hi Hout. rewrite (Hkeep i Hout).
    apply lookup_replicate. split; [reflexivity|assumption].
Qed.
End CallbackFacts.

Lemma settled_unfilled (slots : Slots) : forall i : nat,
  slots !! i = Some None -> settled slots = None.
Proof.
  induction slots as [|[v|] slots IH]; intros i Hi.
  - discriminate.
  - destruct i as [|i]; [discriminate|]. cbn in Hi |- *.
    rewrite (IH i Hi). reflexivity.
  - reflexivity.
Qed.

Lemma settled_None (slots : Slots) :
  settled slots = None -> exists i, slots !! i = Some None.
Proof.
  induction slots as [|[v|] slots IH]; cbn; intros E.
  - discriminate.
  - destruct (settled slots); [discriminate|].
    destruct (IH eq_refl) as [i Hi]. exists (S i). exact Hi.
  - exists 0. reflexivity.
Qed.

(** The outcome of the searches: pending exactly when a callback is never
    invoked, and the values of the promises otherwise. *)
Lemma searchResults_outcome (provider : Provider) (divided : list Quadrant.t)
    (s : Frame) :
  let requests := map search_request divided in
  let order := schedule provider (length requests) in
  let r := searchResults provider divided s in
  (fst r = Pending <-> exists i, i < length requests /\ ~ In i order) /\
  (fst r <> Pending -> fst r = Normal (values provider requests)) /\
  console (snd r) = console s ++ callbacks_lines provider requests order /\
  searches (snd r) = searches s ++ requests /\
  queries (snd r) = queries s.
Proof.
  cbv zeta.
  destruct (searchResults_slots provider divided s)
    as (slots' & Hrun & [Hlen Hsound] & Hin & Hout).
  rewrite Hrun. cbn [fst snd console searches queries].
  split; [|split; [|repeat split]].
  - split.
    + destruct (settled slots') as [vs|] eqn:E; [discriminate|]. intros _.
      destruct (settled_None slots' E) as [i Hi].
      assert (Hlt : i < length (map search_request divided)).
      { rewrite <- Hlen. eapply lookup_lt_Some. eassumption. }
      exists i. split; [assumption|]. intros Hi'.
      destruct (Hin i Hlt Hi') as [v Hv]. congruence.
    + intros (i & Hlt & Hi'). rewrite (settled_unfilled slots' i (Hout i Hlt Hi')).
      reflexivity.
  - destruct (settled slots') as [vs|] eqn:E; [|congruence]. intros _.
    f_equal. apply list_eq. intros i.
    pose proof (settled_lookup _ _ E i) as Hv.
    destruct (vs !! i) as [v|] eqn:Ev; cbn in Hv.
    + symmetry. apply Hsound. assumption.
    + apply lookup_ge_None in Hv. symmetry. apply lookup_ge_None.
      unfold values. rewrite length_imap. lia.
Qed.

(** X2: the searches log one line "Error searching for places: <status>" for
    every invocation of a callback that reports a status other than OK or no
    results, in the order in which the provider invokes the callbacks, and
    nothing else; a search that reports OK without results logs its line with
    the status OK.  The callbacks issue no query and no search.  After a
    look-up that found rows, the console of the tool is the console of the
    look-up followed by these lines. *)
Theorem search_console_trace (provider : Provider) (divided : list Quadrant.t)
    (s : Frame) :
  let requests := map search_request divided in
  let r := searchResults provider divided s in
  console (snd r)
    = console s
      ++ callbacks_lines provider requests (schedule provider (length requests)) /\
  queries (snd r) = queries s /\
  searches (snd r) = searches s ++ requests /\
  (forall store input rows,
     fst (lookup store (state input) initial) = Normal rows ->
     dividedBoundingBoxes rows = divided ->
     console (snd (run store provider input))
       = console (snd (lookup store (state input) initial))
         ++ callbacks_lines provider requests
              (schedule provider (length requests))).
Proof.
  cbv zeta.
  destruct (searchResults_outcome provider divided s) as (_ & _ & Hc & Hs & Hq).
  repeat (split; [assumption|]).
  intros store input rows Hl <-. rewrite run_unfold.
  destruct (lookup store (state input) initial) as [c s1]. cbn [fst snd] in *.
  subst c.
  destruct (searchResults_outcome provider (dividedBoundingBoxes rows) s1)
    as (_ & _ & Hc1 & _).
  destruct (searchResults provider (dividedBoundingBoxes rows) s1)
    as [[vs|err|] s2]; exact Hc1.
Qed.

(** For the box of California and a provider that invokes the callbacks last
    to first and reports no results for the first two searches, one of them
    with the status OK, the tool logs the two lines in the order of the
    invocations. *)
Lemma search_console_trace_witness :
  let store := Scenario.scripted [] (Scenario.rows_found [Scenario.california]) in
  console (snd (run store Scenario.hollow {| state := "california" |}))
    = console (snd (lookup store "california" initial))
      ++ [ search_error_line "ZERO_RESULTS"; search_error_line OK ].
Proof.
  cbv zeta.
  destruct (search_console_trace Scenario.hollow
              (dividedBoundingBoxes [Scenario.california]) initial)
    as (_ & _ & _ & H).
  exact (H (Scenario.scripted [] (Scenario.rows_found [Scenario.california]))
           {| state := "california" |} [Scenario.california] eq_refl eq_refl).
Defined.

(** ** A call that never returns *)

Lemma lookup_not_pending (store : Store) (state : string) :
  fst (lookup store state initial) <> Pending.
Proof.
  pose proof (lookup_spec store state initial) as H.
  remember (lookup store state initial) as r eqn:Er.
  destruct H; cbn [fst]; discriminate.
Qed.



(** ** The number of searches *)

Lemma divide_length (box : Row.t) :
  length (divide box) = if complete box then 4 else 0.
Proof.
  unfold divide, complete.
  destruct (Row.y_min box), (Row.y_max box), (Row.x_min box), (Row.x_max box);
    reflexivity.
Qed.

Lemma dividedBoundingBoxes_length (rows : list Row.t) :
  length (dividedBoundingBoxes rows) = 4 * length (List.filter complete rows).
Proof.
  unfold dividedBoundingBoxes.
  induction rows as [|box rows IH]; cbn [flat_map List.filter]; [reflexivity|].
  rewrite length_app, divide_length, IH.
  destruct (complete box); cbn [length]; lia.
Qed.

(** X4: the tool itself does not cap the rows: whatever list the store
    answers with, every row whose four bounds are present gets its four
    searches, so that the tool issues four times as many searches as there
    are such rows, each of the category "restaurant", also when the call then
    stays pending; a call whose look-up throws issues no search at all. *)
Theorem four_searches_per_complete_row (store : Store) (provider : Provider)
    (input : BoundingBoxInput) :
  let r := run store provider input in
  (forall rows, fst (lookup store (state input) initial) = Normal rows ->
     length (searches (snd r)) = 4 * length (List.filter complete rows)) /\
  (forall err, fst (lookup store (state input) initial) = Throw err ->
     searches (snd r) = []) /\
  Forall (fun request => type request = "restaurant") (searches (snd r)).
Proof.
  cbv zeta. rewrite run_unfold.
  pose proof (lookup_searches store (state input)) as Hse.
  destruct (lookup store (state input) initial) as [[rows|err|] s1];
    cbn [fst snd] in *.
  - destruct (searchResults_outcome provider (dividedBoundingBoxes rows) s1)
      as (_ & _ & _ & Hs & _).
    rewrite Hse in Hs. cbn [app] in Hs.
    assert (Hs' : searches
              (snd (match searchResults provider (dividedBoundingBoxes rows) s1 with
                    | (Normal results, s2) => (Normal (concat results), s2)
                    | (Throw err, s2) => (Throw err, s2)
                    | (Pending, s2) => (Pending, s2)
                    end))
            = map search_request (dividedBoundingBoxes rows)).
    { destruct (searchResults provider (dividedBoundingBoxes rows) s1)
        as [[vs|err|] s2]; exact Hs. }
    rewrite Hs'. split; [|split].
    + intros rows' Hr. injection Hr as <-.
      rewrite length_map. apply dividedBoundingBoxes_length.
    + intros err Hr. discriminate.
    + apply List.Forall_forall. intros request Hin.
      apply List.in_map_iff in Hin. destruct Hin as (box & <- & _). reflexivity.
  - rewrite Hse. split; [|split]; [intros rows Hr; discriminate|reflexivity|].
    constructor.
  - rewrite Hse. split; [|split]; [intros rows Hr; discriminate| |].
    + intros err Hr. discriminate.
    + constructor.
Qed.

(** A store that answers with three rows of which two are complete: eight
    searches. *)
Lemma four_searches_per_complete_row_witness :
  let store :=
    Scenario.scripted []
      (Scenario.rows_found
         [Scenario.california; Scenario.partial_row; Scenario.inverted]) in
  length (searches (snd (run store Scenario.unavailable {| state := "%" |}))) = 8.
Proof.
  cbv zeta.
  destruct (four_searches_per_complete_row
              (Scenario.scripted []
                 (Scenario.rows_found
                    [Scenario.california; Scenario.partial_row; Scenario.inverted]))
              Scenario.unavailable {| state := "%" |}) as [H _].
  exact (H [Scenario.california; Scenario.partial_row; Scenario.inverted] eq_refl).
Defined.

(** ** Boxes within a range *)

Module RangeFacts.
Import Float.
#[local] Open Scope Z_scope.

(** A number between two finite numbers is finite. *)
Lemma between_finite (low high a : number) :
  Num.finite low -> Num.finite high ->
  Num.leb low a = true -> Num.leb a high = true -> Num.finite a.
Proof.
  unfold Num.finite, Num.leb, SFleb, SFcompare.
  destruct low as [[]|[]| |[] ? ?], high as [[]|[]| |[] ? ?],
           a as [[]|[]| |[] ? ?]; cbn; try tauto; try discriminate.
Qed.

(** The double of a number, when it is finite, is exact. *)
Lemma double_sval (x : number) :
  Num.representable x -> Num.finite (Num.add x x) ->
  Num.representable (Num.add x x) /\ sval (Num.add x x) = 2 * sval x.
Proof.
  intros V F. destruct (add_finite_terms x x F) as [Fx _].
  pose proof (FloatFacts.add_nearest x x V V Fx Fx) as N.
  destruct (FloatFacts.nearest_mono _ _ N F) as [R M].
  split; [exact R|].
  destruct (M (2 * sval x)) as [M1 M2].
  { apply FloatFacts.double_representable, FloatFacts.sval_representable.
    assumption. }
  unfold Num.add in *. lia.
Qed.

(** The sum of two numbers that lie between two numbers whose doubles are
    finite is finite. *)
Lemma add_finite_between (low high a b : number) :
  Num.representable low -> Num.representable high ->
  Num.representable a -> Num.representable b ->
  Num.finite (Num.add low low) -> Num.finite (Num.add high high) ->
  Num.leb low a = true -> Num.leb a high = true ->
  Num.leb low b = true -> Num.leb b high = true ->
  Num.finite (Num.add a b).
Proof.
  intros Vl Vh Va Vb Fl Fh La Ha Lb Hb.
  destruct (add_finite_terms low low Fl) as [Fl' _].
  destruct (add_finite_terms high high Fh) as [Fh' _].
  pose proof (between_finite low high a Fl' Fh' La Ha) as Fa.
  pose proof (between_finite low high b Fl' Fh' Lb Hb) as Fb.
  apply (FloatFacts.leb_sval low a Fl' Fa Vl Va) in La.
  apply (FloatFacts.leb_sval a high Fa Fh' Va Vh) in Ha.
  apply (FloatFacts.leb_sval low b Fl' Fb Vl Vb) in Lb.
  apply (FloatFacts.leb_sval b high Fb Fh' Vb Vh) in Hb.
  destruct (double_sval low Vl Fl) as [Rl Sl].
  destruct (double_sval high Vh Fh) as [Rh Sh].
  pose proof (FloatFacts.add_nearest a b Va Vb Fa Fb) as N.
  destruct (Z_le_gt_dec (Z.abs (sval a + sval b)) (Z.abs (sval (Num.add low low))))
    as [Hle|Hgt].
  - exact (FloatFacts.nearest_finite _ _ (Num.add low low) N Rl Fl Hle).
  - apply (FloatFacts.nearest_finite _ _ (Num.add high high) N Rh Fh). lia.
Qed.

End RangeFacts.

(** X5: the sums of the subdivision cannot overflow for bounds of moderate
    size.  For a box whose bounds are in order and lie between two numbers
    [low] and [high] with finite doubles [low + low] and [high + high] -- as
    do all latitudes and longitudes, between -180 and 180 -- the four
    quadrants cover exactly the box and meet on the cut lines only, and each
    quadrant is again a box whose bounds are in order and lie between [low]
    and [high]. *)
Theorem quadrants_tile_within_range (box : Row.t) (parent : Quadrant.t)
    (low high : number) :
  extent box = Some parent ->
  Num.representable low -> Num.representable high ->
  Num.finite (Num.add low low) -> Num.finite (Num.add high high) ->
  representable_bounds parent ->
  ordered_within low high parent ->
  let y_mid := midpoint (Quadrant.y_min parent) (Quadrant.y_max parent) in
  let x_mid := midpoint (Quadrant.x_min parent) (Quadrant.x_max parent) in
  length (divide box) = 4 /\
  covers parent (divide box) /\
  meet_on_cuts y_mid x_mid (divide box) /\
  Forall (fun q => representable_bounds q /\ ordered_within low high q)
    (divide box).
Proof.
  intros Hext Vl Vh Fl Fh (Vy1 & Vy2 & Vx1 & Vx2) (Ly & Hy & Uy & Lx & Hx & Ux).
  cbv zeta.
  pose proof (NumFacts.leb_trans _ _ _ Ly Hy) as Ly2.
  pose proof (NumFacts.leb_trans _ _ _ Hy Uy) as Uy1.
  pose proof (NumFacts.leb_trans _ _ _ Lx Hx) as Lx2.
  pose proof (NumFacts.leb_trans _ _ _ Hx Ux) as Ux1.
  pose proof (RangeFacts.add_finite_between low high _ _ Vl Vh Vy1 Vy2 Fl Fh
                Ly Uy1 Ly2 Uy) as Sy.
  pose proof (RangeFacts.add_finite_between low high _ _ Vl Vh Vx1 Vx2 Fl Fh
                Lx Ux1 Lx2 Ux) as Sx.
  destruct (add_finite_terms _ _ Sy) as [Fy1 Fy2].
  destruct (add_finite_terms _ _ Sx) as [Fx1 Fx2].
  destruct (FloatFacts.midpoint_between _ _ Vy1 Vy2 Fy1 Fy2 Hy Sy)
    as (Vym & _ & Hy1 & Hy2).
  destruct (FloatFacts.midpoint_between _ _ Vx1 Vx2 Fx1 Fx2 Hx Sx)
    as (Vxm & _ & Hx1 & Hx2).
  fold (Num.add (Quadrant.y_min parent) (Quadrant.y_max parent)) in Vym, Hy1, Hy2.
  fold (Num.add (Quadrant.x_min parent) (Quadrant.x_max parent)) in Vxm, Hx1, Hx2.
  fold (Num.div (Num.add (Quadrant.y_min parent) (Quadrant.y_max parent)) Num.two)
    in Vym, Hy1, Hy2.
  fold (Num.div (Num.add (Quadrant.x_min parent) (Quadrant.x_max parent)) Num.two)
    in Vxm, Hx1, Hx2.
  fold (midpoint (Quadrant.y_min parent) (Quadrant.y_max parent)) in Vym, Hy1, Hy2.
  fold (midpoint (Quadrant.x_min parent) (Quadrant.x_max parent)) in Vxm, Hx1, Hx2.
  destruct (quadrants_tile box parent Hext Hy1 Hy2 Hx1 Hx2) as [Hc Hm].
  assert (Hd : divide box =
    [ Quadrant.mk (Quadrant.COUNTY_NAME parent) (Quadrant.y_min parent)
        (midpoint (Quadrant.y_min parent) (Quadrant.y_max parent))
        (Quadrant.x_min parent)
        (midpoint (Quadrant.x_min parent) (Quadrant.x_max parent));
      Quadrant.mk (Quadrant.COUNTY_NAME parent) (Quadrant.y_min parent)
        (midpoint (Quadrant.y_min parent) (Quadrant.y_max parent))
        (midpoint (Quadrant.x_min parent) (Quadrant.x_max parent))
        (Quadrant.x_max parent);
      Quadrant.mk (Quadrant.COUNTY_NAME parent)
        (midpoint (Quadrant.y_min parent) (Quadrant.y_max parent))
        (Quadrant.y_max parent) (Quadrant.x_min parent)
        (midpoint (Quadrant.x_min parent) (Quadrant.x_max parent));
      Quadrant.mk (Quadrant.COUNTY_NAME parent)
        (midpoint (Quadrant.y_min parent) (Quadrant.y_max parent))
        (Quadrant.y_max parent)
        (midpoint (Quadrant.x_min parent) (Quadrant.x_max parent))
        (Quadrant.x_max parent) ]).
  { rewrite (extent_Some box parent Hext) at 1. apply divide_present. }
  split; [rewrite Hd; reflexivity|]. split; [exact Hc|]. split; [exact Hm|].
  rewrite Hd.
  repeat constructor; cbn [Quadrant.y_min Quadrant.y_max Quadrant.x_min
                           Quadrant.x_max];
    try assumption; eauto using NumFacts.leb_trans.
Qed.

(** The box of California lies between -180 and 180. *)
Lemma quadrants_tile_within_range_witness :
  covers Scenario.california_extent (divide Scenario.california) /\
  Forall (fun q => representable_bounds q /\
                   ordered_within (Num.of_Z (-180)) (Num.of_Z 180) q)
    (divide Scenario.california).
Proof.
  destruct (quadrants_tile_within_range Scenario.california
              Scenario.california_extent (Num.of_Z (-180)) (Num.of_Z 180))
    as (_ & Hc & _ & Hq);
    try reflexivity; try exact I;
    [repeat split; reflexivity|repeat split; reflexivity|].
  split; assumption.
Defined.

(** ** Boxes without height or width *)

Lemma eqb_finite_eq (s : bool) (m : positive) (e : Z) (b : number) :
  Num.eqb (S754_finite s m e) b = true -> b = S754_finite s m e.
Proof.
  unfold Num.eqb, SFeqb, SFcompare.
  destruct b as [[]|[]| |[] m' e'], s; cbn; try discriminate;
    NumFacts.compare_cases; cbn; try discriminate; subst; reflexivity.
Qed.

(** The midpoint of a number and itself is the number. *)
Lemma midpoint_same (y : number) :
  Num.representable y -> Num.finite (Num.add y y) -> midpoint y y = y.
Proof.
  intros V F. destruct (add_finite_terms y y F) as [Fy _].
  destruct y as [s|s| |s m e]; try contradiction.
  - destruct s; reflexivity.
  - assert (Hr : Num.leb (S754_finite s m e) (S754_finite s m e) = true)
      by (apply NumFacts.leb_refl; reflexivity).
    destruct (midpoint_in_range _ _ V V Hr F) as [H1 H2].
    apply eqb_finite_eq. apply NumFacts.leb_antisym; assumption.
Qed.

(** X6: a box without height, [y_min = y_max], is cut at this latitude
    itself, so that its northern quadrants are its southern quadrants again
    and the tool issues each of two searches twice; likewise a box without
    width; and a box that is a point yields four copies of itself, hence four
    times the same search.  (The double of the bound is to be finite.) *)
Theorem degenerate_box_repeats_quadrants (box : Row.t) (parent : Quadrant.t) :
  extent box = Some parent ->
  let label := Quadrant.COUNTY_NAME parent in
  let y_min := Quadrant.y_min parent in
  let y_max := Quadrant.y_max parent in
  let x_min := Quadrant.x_min parent in
  let x_max := Quadrant.x_max parent in
  let y_mid := midpoint y_min y_max in
  let x_mid := midpoint x_min x_max in
  let flat := y_max = y_min /\ Num.representable y_min
              /\ Num.finite (Num.add y_min y_min) in
  let thin := x_max = x_min /\ Num.representable x_min
              /\ Num.finite (Num.add x_min x_min) in
  (flat ->
   let west := Quadrant.mk label y_min y_min x_min x_mid in
   let east := Quadrant.mk label y_min y_min x_mid x_max in
   divide box = [west; east; west; east]) /\
  (thin ->
   let south := Quadrant.mk label y_min y_mid x_min x_min in
   let north := Quadrant.mk label y_mid y_max x_min x_min in
   divide box = [south; south; north; north]) /\
  (flat -> thin ->
   divide box = replicate 4 parent /\
   map search_request (dividedBoundingBoxes [box])
     = replicate 4 (search_request parent)).
Proof.
  intros Hext. cbv zeta.
  assert (Hd : divide box =
    [ Quadrant.mk (Quadrant.COUNTY_NAME parent) (Quadrant.y_min parent)
        (midpoint (Quadrant.y_min parent) (Quadrant.y_max parent))
        (Quadrant.x_min parent)
        (midpoint (Quadrant.x_min parent) (Quadrant.x_max parent));
      Quadrant.mk (Quadrant.COUNTY_NAME parent) (Quadrant.y_min parent)
        (midpoint (Quadrant.y_min parent) (Quadrant.y_max parent))
        (midpoint (Quadrant.x_min parent) (Quadrant.x_max parent))
        (Quadrant.x_max parent);
      Quadrant.mk (Quadrant.COUNTY_NAME parent)
        (midpoint (Quadrant.y_min parent) (Quadrant.y_max parent))
        (Quadrant.y_max parent) (Quadrant.x_min parent)
        (midpoint (Quadrant.x_min parent) (Quadrant.x_max parent));
      Quadrant.mk (Quadrant.COUNTY_NAME parent)
        (midpoint (Quadrant.y_min parent) (Quadrant.y_max parent))
        (Quadrant.y_max parent)
        (midpoint (Quadrant.x_min parent) (Quadrant.x_max parent))
        (Quadrant.x_max parent) ]).
  { rewrite (extent_Some box parent Hext) at 1. apply divide_present. }
  split; [|split].
  - intros (Ey & Vy & Fy). rewrite Hd, Ey, (midpoint_same _ Vy Fy). reflexivity.
  - intros (Ex & Vx & Fx). rewrite Hd, Ex, (midpoint_same _ Vx Fx). reflexivity.
  - intros (Ey & Vy & Fy) (Ex & Vx & Fx).
    assert (Hp : divide box = replicate 4 parent).
    { rewrite Hd, Ey, Ex, (midpoint_same _ Vy Fy), (midpoint_same _ Vx Fx).
      destruct parent as [l a b c d]. cbn in Ey, Ex |- *. subst b d.
      reflexivity. }
    split; [exact Hp|].
    unfold dividedBoundingBoxes. cbn [flat_map]. rewrite app_nil_r, Hp.
    reflexivity.
Qed.

(** A box that is the point (37, -109). *)
Lemma degenerate_box_repeats_quadrants_witness :
  divide Scenario.point_box = replicate 4 Scenario.point_extent /\
  map search_request (dividedBoundingBoxes [Scenario.point_box])
    = replicate 4 (search_request Scenario.point_extent).
Proof.
  destruct (degenerate_box_repeats_quadrants Scenario.point_box
              Scenario.point_extent eq_refl) as (_ & _ & H).
  apply H; repeat split; reflexivity.
Defined.

(** ** Places reported more than once *)

Lemma count_occ_concat (p : string) (l : list (list string)) :
  count_occ String.string_dec (concat l) p
  = list_sum (map (fun v => count_occ String.string_dec v p) l).
Proof.
  induction l as [|v l IH]; cbn [concat map list_sum]; [reflexivity|].
  rewrite count_occ_app, IH. reflexivity.
Qed.

Lemma count_occ_twice (p : string) (l : list (list string)) :
  forall (i j : nat) (vi vj : list string),
    i < j -> l !! i = Some vi -> l !! j = Some vj -> In p vi -> In p vj ->
    2 <= count_occ String.string_dec (concat l) p.
Proof.
  induction l as [|v l IH]; intros i j vi vj Hij Hi Hj Pi Pj; [discriminate|].
  cbn [concat]. rewrite count_occ_app.
  destruct j as [|j]; [lia|]. cbn in Hj.
  destruct i as [|i]; cbn in Hi.
  - injection Hi as ->.
    assert (1 <= count_occ String.string_dec vi p)
      by (apply (count_occ_In String.string_dec); assumption).
    assert (1 <= count_occ String.string_dec (concat l) p).
    { apply (count_occ_In String.string_dec). apply in_concat.
      exists vj. split; [|assumption].
      apply list_elem_of_In. eapply list_elem_of_lookup_2. eassumption. }
    lia.
  - assert (2 <= count_occ String.string_dec (concat l) p)
      by (apply (IH i j vi vj); [lia|assumption..]).
    lia.
Qed.

(** X7: the tool removes no duplicate.  Once the callbacks have run, a place
    id occurs in the result as many times as in all the contributions
    together: an id that the searches of two different quadrants both report
    is returned at least twice. *)
Theorem duplicates_are_kept (store : Store) (provider : Provider)
    (input : BoundingBoxInput) (rows : list Row.t) :
  calls_back provider ->
  fst (lookup store (state input) initial) = Normal rows ->
  let per_quadrant :=
    values provider (map search_request (dividedBoundingBoxes rows)) in
  exists result,
    fst (run store provider input) = Normal result /\
    (forall p,
       count_occ String.string_dec result p
       = list_sum (map (fun v => count_occ String.string_dec v p) per_quadrant)) /\
    (forall p i j vi vj,
       i <> j -> per_quadrant !! i = Some vi -> per_quadrant !! j = Some vj ->
       In p vi -> In p vj ->
       2 <= count_occ String.string_dec result p /\ ~ List.NoDup result).
Proof.
  intros Hcb Hl. cbv zeta.
  destruct (run_found store provider input rows Hl
              (lookup_searches store (state input))) as [_ Hr].
  eexists. split; [exact (Hr Hcb)|]. split.
  - intros p. apply count_occ_concat.
  - intros p i j vi vj Hij Hi Hj Pi Pj.
    assert (Two : 2 <= count_occ String.string_dec
                         (concat (values provider
                            (map search_request (dividedBoundingBoxes rows)))) p).
    { destruct (Nat.lt_total i j) as [Hlt|[Heq|Hgt]]; [|congruence|].
      - exact (count_occ_twice p _ i j vi vj Hlt Hi Hj Pi Pj).
      - exact (count_occ_twice p _ j i vj vi Hgt Hj Hi Pj Pi). }
    split; [exact Two|].
    intros Hnd. rewrite (List.NoDup_count_occ String.string_dec) in Hnd.
    specialize (Hnd p). lia.
Qed.

(** For the box of California and a provider that reports the place "a" for
    every search, the tool returns "a" four times. *)
Lemma duplicates_are_kept_witness :
  let store := Scenario.scripted [] (Scenario.rows_found [Scenario.california]) in
  exists result,
    fst (run store Scenario.same_place {| state := "california" |}) = Normal result /\
    count_occ String.string_dec result "a" = 4.
Proof.
  cbv zeta.
  destruct (duplicates_are_kept
              (Scenario.scripted [] (Scenario.rows_found [Scenario.california]))
              Scenario.same_place {| state := "california" |}
              [Scenario.california]) as (result & Hr & Hc & _).
  - intros n i Hi. apply (proj2 (in_seq _ _ _)). lia.
  - reflexivity.
  - exists result. split; [exact Hr|]. rewrite Hc. reflexivity.
Defined.
